(** * PolynomialsABF: the anisotropic vector-valued polynomial space

    A shallow embedding of [deal.II/base/source/polynomials_abf.cc]
    (constructor, [compute], [compute_n_pols]) together with the
    properties the specification states about it.

    Conventions.
    - [unsigned int] is a [Z] in [0, 2^32) and every arithmetic operation
      on it is reduced modulo [2^32].
    - [std::vector<T>] is a [list T]; [v[j]] with [j] beyond the size is
      undefined behaviour in C++ and is the outcome [UndefinedAccess] here.
    - [Point<dim>] is the list of its [dim] coordinates (a coordinate read
      beyond the list is zero); [Tensor<r,dim>] is the function from its
      [r] indices to its components (only indices below [dim] are ever
      used by the code).
    - [Assert(c, e)] is taken with assertions enabled: it raises [e] when
      [c] is false.
    - The buffers a call to [compute] touches (the three caller-owned output
      vectors and the three scratch members of the object) form one record
      that is threaded through a small error-and-state monad. *)

From Stdlib Require Import ZArith Lia.
From Stdlib Require QArith.
From stdpp Require Import base list.

#[local] Open Scope Z_scope.

(** ** Unsigned machine integers *)

Definition UINT_MOD : Z := 2 ^ 32.

Definition uint (z : Z) : Z := z mod UINT_MOD.

Definition uadd (a b : Z) : Z := uint (a + b).

Definition umul (a b : Z) : Z := uint (a * b).

(** ** Outcomes *)

Inductive exc : Type :=
| ExcDimensionMismatch (size expected : Z)
| ExcNotImplemented
| UndefinedAccess.

(** ** The basis-size formula *)

(** [PolynomialsABF<dim>::compute_n_pols]. *)
Definition compute_n_pols (dim : nat) (k : Z) : exc + Z :=
  if (dim =? 1)%nat then inr (uadd k 1)
  else if (dim =? 2)%nat then inr (umul (umul 2 (uadd k 1)) (uadd k 3))
  else if (dim =? 3)%nat then
    inr (umul (umul (umul 3 (uadd k 1)) (uadd k 1)) (uadd k 2))
  else inl ExcNotImplemented.

(** ** The collaborators

    The one-dimensional polynomial families and the anisotropic
    tensor-product space live in other translation units.  They are
    collected in one interface; everything below is stated for an arbitrary
    implementation of it. *)

Record Collaborators : Type := {
  scalar : Type;
  scalar_zero : scalar;
  Polynomial : Type;
  (** [Polynomials::LagrangeEquidistant::generate_complete_basis] *)
  LagrangeEquidistant_basis : Z -> list Polynomial;
  (** [Polynomials::Legendre::generate_complete_basis] *)
  Legendre_basis : Z -> list Polynomial;
  (** value, gradient and Hessian of the [i]-th tensor-product function of
      the space built from the given families, at a point *)
  ap_value : list (list Polynomial) -> list scalar -> nat -> scalar;
  ap_grad : list (list Polynomial) -> list scalar -> nat -> nat -> scalar;
  ap_grad_grad :
    list (list Polynomial) -> list scalar -> nat -> nat -> nat -> scalar
}.

(** Modelled from the spec: the size of a complete basis, which
    [generate_complete_basis] (not part of this file's source) decides.  A
    complete basis of a family holds the polynomials "up to (and including)
    a stated degree", hence [degree + 1] of them. *)
Definition complete_bases (C : Collaborators) : Prop :=
  forall n : Z, 0 <= n ->
    length (LagrangeEquidistant_basis C n) = Z.to_nat (n + 1) /\
    length (Legendre_basis C n) = Z.to_nat (n + 1).

Section Model.
Context (C : Collaborators).

Definition Point : Type := list (scalar C).
Definition Tensor1 : Type := nat -> scalar C.
Definition Tensor2 : Type := nat -> nat -> scalar C.
Definition Tensor3 : Type := nat -> nat -> nat -> scalar C.

(** [t[c] = x], [t[r][c] = x] and [t[a][b][c] = x]. *)
Definition upd1 (t : Tensor1) (c : nat) (x : scalar C) : Tensor1 :=
  fun c' => if (c' =? c)%nat then x else t c'.

Definition upd2 (t : Tensor2) (r c : nat) (x : scalar C) : Tensor2 :=
  fun r' => if (r' =? r)%nat then upd1 (t r') c x else t r'.

Definition upd3 (t : Tensor3) (a b c : nat) (x : scalar C) : Tensor3 :=
  fun a' => if (a' =? a)%nat then upd2 (t a') b c x else t a'.

(** *** AnisotropicPolynomials<dim> *)

Record AnisotropicPolynomials : Type := {
  pols : list (list (Polynomial C))
}.

(** Modelled from the spec: [AnisotropicPolynomials::n], the number of
    tensor-product functions, "the product of the per-direction family
    sizes". *)
Definition ap_n (sp : AnisotropicPolynomials) : nat :=
  foldr (fun fam acc => (length fam * acc)%nat) 1%nat (pols sp).

(** *** PolynomialsABF<dim> *)

Record PolynomialsABF : Type := {
  my_degree : Z;
  n_pols : Z;
  polynomial_space : AnisotropicPolynomials
}.

(** The loop [for (d = 1; d < dim; ++d) pols[d] = fam]. *)
Fixpoint assign_from (d count : nat) (fam : list (Polynomial C))
    (v : list (list (Polynomial C))) : list (list (Polynomial C)) :=
  match count with
  | O => v
  | S count' => assign_from (S d) count' fam (<[d := fam]> v)
  end.

(** The family lists the constructor hands to the anisotropic space. *)
Definition constructor_pols (dim : nat) (k : Z) : list (list (Polynomial C)) :=
  let v0 := replicate dim [] in
  let v1 := <[0%nat := LagrangeEquidistant_basis C (uadd k 2)]> v0 in
  if k =? 0
  then assign_from 1 (dim - 1) (Legendre_basis C 0) v1
  else assign_from 1 (dim - 1) (LagrangeEquidistant_basis C k) v1.

(** [PolynomialsABF<dim>::PolynomialsABF (k)]. *)
Definition PolynomialsABF_new (dim : nat) (k : Z) : exc + PolynomialsABF :=
  match compute_n_pols dim k with
  | inl e => inl e
  | inr n =>
      inr {| my_degree := k;
             n_pols := n;
             polynomial_space := {| pols := constructor_pols dim k |} |}
  end.

(** *** The buffers of a call

    [values], [grads] and [grad_grads] are the caller's output vectors;
    [p_values], [p_grads] and [p_grad_grads] are the mutable scratch
    members of the object, which survive from one call to the next. *)

Record buffers : Type := {
  values : list Tensor1;
  grads : list Tensor2;
  grad_grads : list Tensor3;
  p_values : list (scalar C);
  p_grads : list Tensor1;
  p_grad_grads : list Tensor2
}.

Definition set_values (l : list Tensor1) (s : buffers) : buffers :=
  {| values := l; grads := grads s; grad_grads := grad_grads s;
     p_values := p_values s; p_grads := p_grads s;
     p_grad_grads := p_grad_grads s |}.

Definition set_grads (l : list Tensor2) (s : buffers) : buffers :=
  {| values := values s; grads := l; grad_grads := grad_grads s;
     p_values := p_values s; p_grads := p_grads s;
     p_grad_grads := p_grad_grads s |}.

Definition set_grad_grads (l : list Tensor3) (s : buffers) : buffers :=
  {| values := values s; grads := grads s; grad_grads := l;
     p_values := p_values s; p_grads := p_grads s;
     p_grad_grads := p_grad_grads s |}.

Definition set_scratch (pv : list (scalar C)) (pg : list Tensor1)
    (pgg : list Tensor2) (s : buffers) : buffers :=
  {| values := values s; grads := grads s; grad_grads := grad_grads s;
     p_values := pv; p_grads := pg; p_grad_grads := pgg |}.

(** *** Computations that read and write the buffers and may raise *)

Definition M (A : Type) : Type := buffers -> (exc + A) * buffers.

Definition ret {A} (a : A) : M A := fun s => (inr a, s).

Definition raise {A} (e : exc) : M A := fun s => (inl e, s).

Definition bind {A B} (m : M A) (f : A -> M B) : M B :=
  fun s =>
    match m s with
    | (inr a, s') => f a s'
    | (inl e, s') => (inl e, s')
    end.

Definition get : M buffers := fun s => (inr s, s).

Definition modify (f : buffers -> buffers) : M unit := fun s => (inr tt, f s).

Notation "x <- m ;; k" := (bind m (fun x => k))
  (at level 63, m at next level, right associativity).
Notation "m ;;; k" := (bind m (fun _ => k))
  (at level 63, right associativity).

Definition Assert (c : bool) (e : exc) : M unit :=
  if c then ret tt else raise e.

(** [for (i = lo; i < lo + count; ++i) body(i)]. *)
Fixpoint for_range (lo count : nat) (body : nat -> M unit) : M unit :=
  match count with
  | O => ret tt
  | S count' => body lo ;;; for_range (S lo) count' body
  end.

(** Reading [v[j]]. *)
Definition at_index {A} (v : list A) (j : nat) : M A :=
  match v !! j with
  | Some a => ret a
  | None => raise UndefinedAccess
  end.

(** Writing through [v[j]] in the vector that [fget] reads and [fset]
    replaces. *)
Definition modify_at {T} (fget : buffers -> list T)
    (fset : list T -> buffers -> buffers) (j : nat) (f : T -> T) : M unit :=
  s <- get ;; t <- at_index (fget s) j ;;
  modify (fset (<[j := f t]> (fget s))).

Definition modify_value : nat -> (Tensor1 -> Tensor1) -> M unit :=
  modify_at values set_values.

Definition modify_grad : nat -> (Tensor2 -> Tensor2) -> M unit :=
  modify_at grads set_grads.

Definition modify_grad_grad : nat -> (Tensor3 -> Tensor3) -> M unit :=
  modify_at grad_grads set_grad_grads.

(** [std::vector::resize]: keeps the leading elements and pads with
    value-initialised ones. *)
Definition resize_vec {A} (n : nat) (z : A) (v : list A) : list A :=
  take n v ++ replicate (n - length v) z.

(** Modelled from the spec: [AnisotropicPolynomials::compute], which
    "evaluates all tensor-product basis functions' values, gradients, and
    Hessians at a point" into vectors that each obey "the same
    empty-or-full-length contract"; every entry of a non-empty vector is
    overwritten. *)
Definition ap_compute (sp : AnisotropicPolynomials) (p : Point) : M unit :=
  s <- get ;;
  let n := Z.of_nat (ap_n sp) in
  let sz {A} (v : list A) := Z.of_nat (length v) in
  Assert ((sz (p_values s) =? n) || (sz (p_values s) =? 0))
         (ExcDimensionMismatch (sz (p_values s)) n) ;;;
  Assert ((sz (p_grads s) =? n) || (sz (p_grads s) =? 0))
         (ExcDimensionMismatch (sz (p_grads s)) n) ;;;
  Assert ((sz (p_grad_grads s) =? n) || (sz (p_grad_grads s) =? 0))
         (ExcDimensionMismatch (sz (p_grad_grads s)) n) ;;;
  modify (set_scratch
    (map (ap_value C (pols sp) p) (seq 0 (length (p_values s))))
    (map (ap_grad C (pols sp) p) (seq 0 (length (p_grads s))))
    (map (ap_grad_grad C (pols sp) p) (seq 0 (length (p_grad_grads s))))).

(** The point [p] with [p(c) = unit_point((c+d)%dim)]; a [Point<dim>]
    starts with all coordinates zero. *)
Definition rotated_point (dim : nat) (unit_point : Point) (d : nat) : Point :=
  foldl (fun p c =>
           <[c := nth ((c + d) mod dim) unit_point (scalar_zero C)]> p)
        (replicate dim (scalar_zero C)) (seq 0 dim).

(** The index [i + d*n_sub], computed in [unsigned int]. *)
Definition block_index (i d n_sub : nat) : nat :=
  Z.to_nat (uadd (Z.of_nat i) (umul (Z.of_nat d) (Z.of_nat n_sub))).

(** The three scatter loops of one direction [d]. *)
Definition store_values (d n_sub : nat) : M unit :=
  s <- get ;;
  for_range 0 (length (p_values s)) (fun i =>
    s <- get ;; x <- at_index (p_values s) i ;;
    modify_value (block_index i d n_sub) (fun t => upd1 t d x)).

Definition store_grads (dim d n_sub : nat) : M unit :=
  s <- get ;;
  for_range 0 (length (p_grads s)) (fun i =>
    for_range 0 dim (fun d1 =>
      s <- get ;; g <- at_index (p_grads s) i ;;
      modify_grad (block_index i d n_sub)
        (fun t => upd2 t d ((d1 + d) mod dim) (g d1)))).

Definition store_grad_grads (dim d n_sub : nat) : M unit :=
  s <- get ;;
  for_range 0 (length (p_grad_grads s)) (fun i =>
    for_range 0 dim (fun d1 =>
      for_range 0 dim (fun d2 =>
        s <- get ;; h <- at_index (p_grad_grads s) i ;;
        modify_grad_grad (block_index i d n_sub)
          (fun t => upd3 t d ((d1 + d) mod dim) ((d2 + d) mod dim)
                         (h d1 d2))))).

(** The body of the loop over the directions. *)
Definition direction_body (dim : nat) (abf : PolynomialsABF)
    (unit_point : Point) (d : nat) : M unit :=
  let n_sub := ap_n (polynomial_space abf) in
  let p := rotated_point dim unit_point d in
  ap_compute (polynomial_space abf) p ;;;
  store_values d n_sub ;;;
  store_grads dim d n_sub ;;;
  store_grad_grads dim d n_sub.

(** [PolynomialsABF<dim>::compute]. *)
Definition compute (dim : nat) (abf : PolynomialsABF) (unit_point : Point)
    : M unit :=
  s <- get ;;
  let sz {A} (v : list A) := Z.of_nat (length v) in
  Assert ((sz (values s) =? n_pols abf) || (sz (values s) =? 0))
         (ExcDimensionMismatch (sz (values s)) (n_pols abf)) ;;;
  Assert ((sz (grads s) =? n_pols abf) || (sz (grads s) =? 0))
         (ExcDimensionMismatch (sz (grads s)) (n_pols abf)) ;;;
  Assert ((sz (grad_grads s) =? n_pols abf) || (sz (grad_grads s) =? 0))
         (ExcDimensionMismatch (sz (grad_grads s)) (n_pols abf)) ;;;
  let n_sub := ap_n (polynomial_space abf) in
  modify (fun s =>
    set_scratch
      (resize_vec (if (length (values s) =? 0)%nat then 0%nat else n_sub)
                  (scalar_zero C) (p_values s))
      (resize_vec (if (length (grads s) =? 0)%nat then 0%nat else n_sub)
                  (fun _ => scalar_zero C) (p_grads s))
      (resize_vec (if (length (grad_grads s) =? 0)%nat then 0%nat else n_sub)
                  (fun _ _ => scalar_zero C) (p_grad_grads s))
      s) ;;;
  for_range 0 dim (direction_body dim abf unit_point).

(** *** The effect of [compute] on one entry, in closed form

    Entry [j] of an output vector belongs to direction [j / n_sub] and to
    the scalar function [j mod n_sub]; the following are the tensors the
    loops above leave there, given the tensor [t] found there. *)

(** The [dim] writes [t[d][(d1+d)%dim] = g[d1]]. *)
Definition write_row (dim d : nat) (g : Tensor1) (t : Tensor2) : Tensor2 :=
  foldl (fun t d1 => upd2 t d ((d1 + d) mod dim) (g d1)) t (seq 0 dim).

(** The [dim * dim] writes [t[d][(d1+d)%dim][(d2+d)%dim] = h[d1][d2]]. *)
Definition write_slice (dim d : nat) (h : Tensor2) (t : Tensor3) : Tensor3 :=
  foldl (fun t d1 =>
           foldl (fun t d2 =>
                    upd3 t d ((d1 + d) mod dim) ((d2 + d) mod dim) (h d1 d2))
                 t (seq 0 dim))
        t (seq 0 dim).

Definition entry_value (dim : nat) (abf : PolynomialsABF) (unit_point : Point)
    (j : nat) (t : Tensor1) : Tensor1 :=
  let n_sub := ap_n (polynomial_space abf) in
  let d := (j / n_sub)%nat in
  upd1 t d (ap_value C (pols (polynomial_space abf))
              (rotated_point dim unit_point d) (j mod n_sub)).

Definition entry_grad (dim : nat) (abf : PolynomialsABF) (unit_point : Point)
    (j : nat) (t : Tensor2) : Tensor2 :=
  let n_sub := ap_n (polynomial_space abf) in
  let d := (j / n_sub)%nat in
  write_row dim d (ap_grad C (pols (polynomial_space abf))
                     (rotated_point dim unit_point d) (j mod n_sub)) t.

Definition entry_grad_grad (dim : nat) (abf : PolynomialsABF)
    (unit_point : Point) (j : nat) (t : Tensor3) : Tensor3 :=
  let n_sub := ap_n (polynomial_space abf) in
  let d := (j / n_sub)%nat in
  write_slice dim d (ap_grad_grad C (pols (polynomial_space abf))
                       (rotated_point dim unit_point d) (j mod n_sub)) t.

(** *** Notions used to state the properties *)

(** The test of one [Assert] of [compute]. *)
Definition size_ok (abf : PolynomialsABF) (len : nat) : bool :=
  (Z.of_nat len =? n_pols abf) || (Z.of_nat len =? 0).

(** An output vector has "length 0 or exactly [n_pols]". *)
Definition empty_or_full (abf : PolynomialsABF) (len : nat) : Prop :=
  Z.of_nat len = n_pols abf \/ len = 0%nat.

(** The scratch members right after the three [resize] calls. *)
Definition resized (abf : PolynomialsABF) (s : buffers) : buffers :=
  let n_sub := ap_n (polynomial_space abf) in
  set_scratch
    (resize_vec (if (length (values s) =? 0)%nat then 0%nat else n_sub)
                (scalar_zero C) (p_values s))
    (resize_vec (if (length (grads s) =? 0)%nat then 0%nat else n_sub)
                (fun _ => scalar_zero C) (p_grads s))
    (resize_vec (if (length (grad_grads s) =? 0)%nat then 0%nat else n_sub)
                (fun _ _ => scalar_zero C) (p_grad_grads s))
    s.

(** A scratch vector has the size its output vector asks for, and the
    output vector has room for all [dim] blocks. *)
Definition sized (dim n_sub scratch_len out_len : nat) : Prop :=
  (scratch_len = n_sub /\ out_len = (dim * n_sub)%nat) \/
  (scratch_len = 0%nat /\ out_len = 0%nat).

(** Two states of the buffers with the same output vectors. *)
Definition same_outputs (s1 s2 : buffers) : Prop :=
  values s1 = values s2 /\ grads s1 = grads s2
  /\ grad_grads s1 = grad_grads s2.

(** ... and scratch vectors of the same sizes. *)
Definition same_sizes (s1 s2 : buffers) : Prop :=
  length (p_values s1) = length (p_values s2) /\
  length (p_grads s1) = length (p_grads s2) /\
  length (p_grad_grads s1) = length (p_grad_grads s2).

(** The buffers [after] a call, with the output vectors supplied anew
    with the contents they have in [fresh]. *)
Definition with_outputs (fresh after : buffers) : buffers :=
  set_values (values fresh)
    (set_grads (grads fresh)
       (set_grad_grads (grad_grads fresh) after)).

(** The lengths of all six vectors are those a call of [compute] on
    [s0] has right after its [resize] calls. *)
Definition shaped (abf : PolynomialsABF) (s0 s : buffers) : Prop :=
  let n_sub := ap_n (polynomial_space abf) in
  (length (values s) = length (values s0) /\
   length (grads s) = length (grads s0) /\
   length (grad_grads s) = length (grad_grads s0)) /\
  (length (p_values s) = (if (length (values s0) =? 0)%nat then 0 else n_sub)%nat /\
   length (p_grads s) = (if (length (grads s0) =? 0)%nat then 0 else n_sub)%nat /\
   length (p_grad_grads s)
   = (if (length (grad_grads s0) =? 0)%nat then 0 else n_sub)%nat).

(** Every index the direction [d] writes lies within a vector of
    [out_len] entries, if that is not empty. *)
Definition in_range (abf : PolynomialsABF) (d out_len : nat) : Prop :=
  let n_sub := ap_n (polynomial_space abf) in
  out_len <> 0%nat ->
  forall i, (i < n_sub)%nat -> (block_index i d n_sub < out_len)%nat.

(** A computation keeps [I] in every outcome and raises nothing but
    [UndefinedAccess]. *)
Definition steady (I : buffers -> Prop) (m : M unit) : Prop :=
  forall s, I s ->
    I (snd (m s)) /\ (fst (m s) = inr tt \/ fst (m s) = inl UndefinedAccess).

(** The vector [v] has as many entries as [v0], and entry [j] of [v]
    is related by [same j] to entry [j] of [v0]. *)
Definition kept {T} (same : nat -> T -> T -> Prop) (v0 v : list T) : Prop :=
  length v = length v0 /\
  forall j t, v0 !! j = Some t -> exists t', v !! j = Some t' /\ same j t' t.

(** Entry [j] of an output vector belongs to the direction [j / n_sub]:
    [framed abf s0 s] says that in [s] every entry of the three output
    vectors of [s0] is still there and has, outside the component, row or
    slice of its own direction, the contents it has in [s0]. *)
Definition framed (abf : PolynomialsABF) (s0 s : buffers) : Prop :=
  let n_sub := ap_n (polynomial_space abf) in
  kept (fun j (t' t : Tensor1) =>
          forall c, c <> (j / n_sub)%nat -> t' c = t c)
       (values s0) (values s) /\
  kept (fun j (t' t : Tensor2) =>
          forall r c, r <> (j / n_sub)%nat -> t' r c = t r c)
       (grads s0) (grads s) /\
  kept (fun j (t' t : Tensor3) =>
          forall a b c, a <> (j / n_sub)%nat -> t' a b c = t a b c)
       (grad_grads s0) (grad_grads s).

End Model.

Arguments values {C} _.
Arguments grads {C} _.
Arguments grad_grads {C} _.
Arguments p_values {C} _.
Arguments p_grads {C} _.
Arguments p_grad_grads {C} _.
Arguments my_degree {C} _.
Arguments n_pols {C} _.
Arguments polynomial_space {C} _.
Arguments pols {C} _.
Arguments size_ok {C} _ _.
Arguments empty_or_full {C} _ _.
Arguments resized {C} _ _.
Arguments same_outputs {C} _ _.
Arguments same_sizes {C} _ _.
Arguments with_outputs {C} _ _.
Arguments shaped {C} _ _ _.
Arguments steady {C} _ _.
Arguments in_range {C} _ _ _.
Arguments framed {C} _ _ _.

(** ** A reference implementation of the collaborators over the rationals

    It is used to run the model on concrete inputs. *)

Module RationalModel.
Import QArith.
#[local] Open Scope Q_scope.

(** A polynomial is the list of its coefficients, constant term first. *)
Definition poly : Type := list Q.

Definition poly_eval (p : poly) (x : Q) : Q :=
  foldr (fun a acc => a + x * acc) 0 p.

Fixpoint poly_deriv_from (n : nat) (p : poly) : poly :=
  match p with
  | [] => []
  | a :: p' => (inject_Z (Z.of_nat n) * a) :: poly_deriv_from (S n) p'
  end.

Definition poly_deriv (p : poly) : poly :=
  match p with
  | [] => []
  | _ :: p' => poly_deriv_from 1 p'
  end.

Fixpoint poly_add (p q : poly) : poly :=
  match p, q with
  | [], _ => q
  | _, [] => p
  | a :: p', b :: q' => (a + b) :: poly_add p' q'
  end.

Definition poly_scale (c : Q) (p : poly) : poly := map (Qmult c) p.

Fixpoint poly_mul (p q : poly) : poly :=
  match p with
  | [] => []
  | a :: p' => poly_add (poly_scale a q) (0 :: poly_mul p' q)
  end.

(** Modelled from the spec: the "Lagrange-equidistant" family of degree
    [n], that is the Lagrange interpolation polynomials of the [n + 1]
    equidistant nodes [i/n] of the unit interval; the [j]-th one is the
    product over [i <> j] of [(n x - i) / (j - i)]. *)
Definition lagrange_factor (n j i : nat) : poly :=
  if (i =? j)%nat then [1]
  else
    let den := inject_Z (Z.of_nat j - Z.of_nat i) in
    [Qred (- inject_Z (Z.of_nat i) / den); Qred (inject_Z (Z.of_nat n) / den)].

Definition lagrange_poly (n j : nat) : poly :=
  foldr (fun i acc => poly_mul (lagrange_factor n j i) acc) [1] (seq 0 (S n)).

Definition lagrange_basis (n : Z) : list poly :=
  map (lagrange_poly (Z.to_nat n)) (seq 0 (S (Z.to_nat n))).

(** Modelled from the spec: the Legendre family on the unit interval,
    from the three-term recurrence; its member of degree [0] is "the
    constant function". *)
Fixpoint legendre_pair (m : nat) : poly * poly :=
  match m with
  | O => ([1], [])
  | S m' =>
      let '(pm, pm1) := legendre_pair m' in
      let a := inject_Z (2 * Z.of_nat m' + 1) / inject_Z (Z.of_nat m' + 1) in
      let b := inject_Z (Z.of_nat m') / inject_Z (Z.of_nat m' + 1) in
      (poly_add (poly_scale a (poly_mul [-1; 2] pm))
                (poly_scale (- b) pm1), pm)
  end.

Definition legendre_basis (n : Z) : list poly :=
  map (fun m => fst (legendre_pair m)) (seq 0 (S (Z.to_nat n))).

(** Modelled from the spec: the tensor-product functions of an
    anisotropic space.  Function [i] is the product over the directions
    [d] of one member of each family, the index of direction 0 running
    fastest; [order d] is the number of derivatives taken in direction
    [d]. *)
Fixpoint tensor_product (d : nat) (order : nat -> nat) (fams : list (list poly))
    (p : list Q) (i : nat) : Q :=
  match fams with
  | [] => 1
  | fam :: rest =>
      let n := length fam in
      let q := nth (i mod n) fam [] in
      Qred (poly_eval (Nat.iter (order d) poly_deriv q) (nth d p 0)
            * tensor_product (S d) order rest p (i / n))
  end.

Definition indicator (a b : nat) : nat := if (a =? b)%nat then 1 else 0.

Definition rational : Collaborators := {|
  scalar := Q;
  scalar_zero := 0;
  Polynomial := poly;
  LagrangeEquidistant_basis := lagrange_basis;
  Legendre_basis := legendre_basis;
  ap_value := fun fams p i => tensor_product 0 (fun _ => 0%nat) fams p i;
  ap_grad := fun fams p i d1 => tensor_product 0 (indicator d1) fams p i;
  ap_grad_grad := fun fams p i d1 d2 =>
    tensor_product 0 (fun d => (indicator d1 d + indicator d2 d)%nat) fams p i
|}.

(** Output vectors of [n] zero tensors, and the buffers of a first call. *)
Definition zero_buffers (nv ng ngg : nat) : buffers rational :=
  Build_buffers rational
    (replicate nv (fun _ => 0)) (replicate ng (fun _ _ => 0))
    (replicate ngg (fun _ _ _ => 0)) [] [] [].

(** Output vectors whose tensors hold [q] in every component, and empty
    scratch members. *)
Definition filled_buffers (q : Q) (nv ng ngg : nat) : buffers rational :=
  Build_buffers rational
    (replicate nv (fun _ => q)) (replicate ng (fun _ _ => q))
    (replicate ngg (fun _ _ _ => q)) [] [] [].

(** The object the constructor returns for [dim] and [k]. *)
Definition constructed (dim : nat) (k : Z) : PolynomialsABF rational :=
  match PolynomialsABF_new rational dim k with
  | inr abf => abf
  | inl _ => {| my_degree := k; n_pols := 0%Z;
                polynomial_space := {| pols := [] |} |}
  end.

(** The components of the output vectors, tabulated for [dim]. *)
Definition table1 (dim : nat) (v : list (Tensor1 rational)) : list (list Q) :=
  map (fun t => map t (seq 0 dim)) v.

Definition table2 (dim : nat) (v : list (Tensor2 rational))
    : list (list (list Q)) :=
  map (fun t => map (fun r => map (t r) (seq 0 dim)) (seq 0 dim)) v.

End RationalModel.

(** * Properties *)

(** ** Unsigned arithmetic *)

Lemma UINT_MOD_eq : UINT_MOD = 4294967296.
Proof. reflexivity. Qed.

Lemma uint_small z : 0 <= z < UINT_MOD -> uint z = z.
Proof. intros H. unfold uint. now apply Z.mod_small. Qed.

Lemma umul_uint_r a b : umul a (uint b) = uint (a * b).
Proof. unfold umul, uint. now rewrite Z.mul_mod_idemp_r. Qed.

Lemma umul_2_uint a b : umul (uint a) (uint b) = uint (a * b).
Proof. unfold umul, uint. now rewrite <- Z.mul_mod. Qed.

(** The three closed forms, reduced once at the end. *)
Lemma compute_n_pols_mod (k : Z) :
  compute_n_pols 1 k = inr (uint (k + 1)) /\
  compute_n_pols 2 k = inr (uint (2 * (k + 1) * (k + 3))) /\
  compute_n_pols 3 k = inr (uint (3 * (k + 1) * (k + 1) * (k + 2))).
Proof.
  unfold compute_n_pols, uadd; cbn [Nat.eqb].
  repeat split; f_equal.
  - now rewrite (umul_uint_r 2), umul_2_uint.
  - now rewrite (umul_uint_r 3), umul_2_uint, umul_2_uint.
Qed.

(** C3 (as stated) fails: for the largest [unsigned int] the dimension-1
    count [k+1] wraps around to [0]. *)
Lemma compute_n_pols_wraps :
  compute_n_pols 1 4294967295 = inr 0 /\
  compute_n_pols 1 4294967295 <> inr (4294967295 + 1).
Proof. split; [reflexivity | discriminate]. Qed.

(** C3 (amended): for every [unsigned int] [k], [compute_n_pols] returns the
    closed form [k+1], [2(k+1)(k+3)], [3(k+1)^2(k+2)] of its dimension
    reduced modulo [2^32], which is the closed form itself whenever that is
    below [2^32]; for a dimension other than 1, 2, 3 it raises
    [ExcNotImplemented]. *)
Theorem compute_n_pols_closed_form (k : Z) :
  0 <= k < UINT_MOD ->
  (compute_n_pols 1 k = inr ((k + 1) mod 2 ^ 32) /\
   compute_n_pols 2 k = inr ((2 * (k + 1) * (k + 3)) mod 2 ^ 32) /\
   compute_n_pols 3 k = inr ((3 * (k + 1) * (k + 1) * (k + 2)) mod 2 ^ 32)) /\
  (k + 1 < 2 ^ 32 -> compute_n_pols 1 k = inr (k + 1)) /\
  (2 * (k + 1) * (k + 3) < 2 ^ 32 ->
   compute_n_pols 2 k = inr (2 * (k + 1) * (k + 3))) /\
  (3 * (k + 1) * (k + 1) * (k + 2) < 2 ^ 32 ->
   compute_n_pols 3 k = inr (3 * (k + 1) * (k + 1) * (k + 2))) /\
  (forall dim : nat, dim <> 1%nat -> dim <> 2%nat -> dim <> 3%nat ->
   compute_n_pols dim k = inl ExcNotImplemented).
Proof.
  intros Hk. rewrite UINT_MOD_eq in Hk.
  destruct (compute_n_pols_mod k) as (H1 & H2 & H3).
  split; [exact (conj H1 (conj H2 H3)) |].
  repeat split.
  - intros Hs. rewrite H1. f_equal. apply uint_small. rewrite UINT_MOD_eq. lia.
  - intros Hs. rewrite H2. f_equal. apply uint_small. rewrite UINT_MOD_eq. nia.
  - intros Hs. rewrite H3. f_equal. apply uint_small. rewrite UINT_MOD_eq. nia.
  - intros dim D1 D2 D3. unfold compute_n_pols.
    destruct (Nat.eqb_spec dim 1); [contradiction |].
    destruct (Nat.eqb_spec dim 2); [contradiction |].
    destruct (Nat.eqb_spec dim 3); [contradiction | reflexivity].
Qed.

Lemma compute_n_pols_closed_form_witness :
  compute_n_pols 1 1 = inr 2 /\ compute_n_pols 2 1 = inr 16 /\
  compute_n_pols 3 1 = inr 36 /\ compute_n_pols 4 1 = inl ExcNotImplemented.
Proof.
  assert (Hk : 0 <= 1 < UINT_MOD) by (rewrite UINT_MOD_eq; lia).
  destruct (compute_n_pols_closed_form 1 Hk) as (_ & H1 & H2 & H3 & H4).
  split; [| split; [| split]].
  - apply H1. reflexivity.
  - apply H2. reflexivity.
  - apply H3. reflexivity.
  - apply H4; discriminate.
Defined.

(** ** Construction *)

Section Construction.
Context (C : Collaborators).

Lemma assign_from_replicate (count : nat) :
  forall (fam : list (Polynomial C)) (pre : list (list (Polynomial C))),
    assign_from C (length pre) count fam (pre ++ replicate count [])
    = pre ++ replicate count fam.
Proof.
  induction count as [| count IH]; intros fam pre; [reflexivity |].
  cbn [assign_from replicate].
  replace (<[length pre := fam]> (pre ++ [] :: replicate count []))
    with ((pre ++ [fam]) ++ replicate count []).
  - replace (S (length pre)) with (length (pre ++ [fam]))
      by (rewrite length_app; cbn; lia).
    rewrite IH. now rewrite <- app_assoc.
  - rewrite <- app_assoc. cbn.
    rewrite insert_app_r_alt by lia.
    now rewrite Nat.sub_diag.
Qed.

(** The constructor's loops, in closed form. *)
Lemma constructor_pols_eq (dim : nat) (k : Z) :
  (1 <= dim)%nat ->
  constructor_pols C dim k
  = LagrangeEquidistant_basis C (uadd k 2)
      :: replicate (dim - 1)
           (if k =? 0 then Legendre_basis C 0
            else LagrangeEquidistant_basis C k).
Proof.
  intros Hd. unfold constructor_pols.
  destruct dim as [| n]; [lia |].
  cbn [replicate]. replace (S n - 1)%nat with n by lia.
  change (<[0%nat := ?x]> ([] :: ?l)) with ([x] ++ l).
  destruct (k =? 0);
    exact (assign_from_replicate n _ [LagrangeEquidistant_basis C (uadd k 2)]).
Qed.

(** C6 (amended): for [dim] in {1,2,3} and an [unsigned int] degree [k],
    the constructor succeeds and builds the anisotropic space from exactly
    [dim] family lists: direction 0 gets the complete Lagrange-equidistant
    basis of degree [(k+2) mod 2^32], which is [k+2] when [k+2 < 2^32], and
    every direction in [1, dim) gets the complete Legendre basis of degree
    0 when [k == 0] and the complete Lagrange-equidistant basis of degree
    [k] otherwise. *)
Theorem constructor_families (dim : nat) (k : Z) :
  (1 <= dim <= 3)%nat ->
  0 <= k < UINT_MOD ->
  exists abf,
    PolynomialsABF_new C dim k = inr abf /\
    my_degree abf = k /\
    compute_n_pols dim k = inr (n_pols abf) /\
    length (pols (polynomial_space abf)) = dim /\
    pols (polynomial_space abf) !! 0%nat
      = Some (LagrangeEquidistant_basis C ((k + 2) mod 2 ^ 32)) /\
    (k + 2 < 2 ^ 32 ->
     pols (polynomial_space abf) !! 0%nat
       = Some (LagrangeEquidistant_basis C (k + 2))) /\
    (forall d, (1 <= d < dim)%nat ->
       pols (polynomial_space abf) !! d
       = Some (if k =? 0 then Legendre_basis C 0
               else LagrangeEquidistant_basis C k)).
Proof.
  intros Hd Hk. unfold PolynomialsABF_new.
  assert (Hn : exists n, compute_n_pols dim k = inr n).
  { unfold compute_n_pols.
    destruct dim as [| [| [| [| ?]]]]; try lia; cbn; eauto. }
  destruct Hn as [n Hn]. rewrite Hn.
  eexists. split; [reflexivity |]. cbn [my_degree n_pols polynomial_space pols].
  rewrite constructor_pols_eq by lia.
  split; [reflexivity |]. split; [reflexivity |].
  split; [cbn; rewrite length_replicate; lia |].
  split; [reflexivity |].
  split.
  - intros Hs. cbn. unfold uadd. rewrite uint_small; [reflexivity |].
    rewrite UINT_MOD_eq in *. lia.
  - intros d Hdd. destruct d as [| d]; [lia |]. cbn [lookup list_lookup].
    apply lookup_replicate_2. lia.
Qed.

End Construction.

(** ** Loops and writes *)

Section Loops.
Context (C : Collaborators).

#[local] Abbreviation M := (M C).
#[local] Abbreviation buffers := (buffers C).

Lemma for_range_succ lo count (body : nat -> M unit) s :
  for_range C lo (S count) body s
  = match body lo s with
    | (inr _, s') => for_range C (S lo) count body s'
    | (inl e, s') => (inl e, s')
    end.
Proof. reflexivity. Qed.

Section Field.
Context {T : Type}.
Variable fget : buffers -> list T.
Variable fset : list T -> buffers -> buffers.
Hypothesis get_set : forall l s, fget (fset l s) = l.
Hypothesis set_set : forall l l' s, fset l (fset l' s) = fset l s.
Hypothesis set_get : forall s, fset (fget s) s = s.

Lemma modify_at_eq j (f : T -> T) s :
  modify_at C fget fset j f s
  = match fget s !! j with
    | Some t => (inr tt, fset (<[j := f t]> (fget s)) s)
    | None => (inl UndefinedAccess, s)
    end.
Proof.
  unfold modify_at, bind, get, at_index, modify, ret, raise.
  now destruct (fget s !! j).
Qed.

(** A loop that keeps writing through the same [v[j]] amounts to one
    write of the composed update. *)
Lemma repeated_modify (body : nat -> M unit) (F : nat -> T -> T) j s count :
  forall lo l0,
    (forall i l, (lo <= i < lo + count)%nat -> is_Some (l !! j) ->
       body i (fset l s) = modify_at C fget fset j (F i) (fset l s)) ->
    is_Some (l0 !! j) ->
    for_range C lo count body (fset l0 s)
    = modify_at C fget fset j
        (fun t => foldl (fun t i => F i t) t (seq lo count)) (fset l0 s).
Proof.
  induction count as [| n IH]; intros lo l0 Hbody [t Ht].
  - rewrite modify_at_eq, get_set, Ht. cbn.
    now rewrite list_insert_id, set_set.
  - rewrite for_range_succ, (Hbody lo l0) by (eauto || lia).
    rewrite !modify_at_eq, get_set, Ht, set_set.
    assert (Hj : (j < length l0)%nat) by (eapply lookup_lt_Some; eauto).
    rewrite IH.
    + rewrite modify_at_eq, get_set, list_lookup_insert_eq by exact Hj.
      now rewrite list_insert_insert_eq, !set_set.
    + intros i l Hi Hl. apply Hbody; [lia | exact Hl].
    + rewrite list_lookup_insert_eq by exact Hj. eauto.
Qed.

(** A loop whose [i]-th iteration writes through [v[base + i]]. *)
Lemma scatter_range (body : nat -> M unit) (F : nat -> T -> T) base s count :
  forall lo l0,
    (forall i l, (lo <= i < lo + count)%nat -> length l = length l0 ->
       body i (fset l s)
       = modify_at C fget fset (base + i) (F i) (fset l s)) ->
    (count = 0 \/ base + lo + count <= length l0)%nat ->
    exists v',
      for_range C lo count body (fset l0 s) = (inr tt, fset v' s) /\
      length v' = length l0 /\
      forall j, v' !! j
        = if decide (base + lo <= j < base + lo + count)%nat
          then F (j - base)%nat <$> l0 !! j else l0 !! j.
Proof.
  induction count as [| n IH]; intros lo l0 Hbody Hlen.
  - exists l0. split; [reflexivity |]. split; [reflexivity |].
    intros j. case_decide; [lia | reflexivity].
  - destruct Hlen as [Hlen | Hlen]; [discriminate |].
    rewrite for_range_succ, (Hbody lo l0) by (reflexivity || lia).
    rewrite modify_at_eq, get_set.
    destruct (lookup_lt_is_Some_2 l0 (base + lo)%nat ltac:(lia)) as [t Ht].
    rewrite Ht, set_set.
    destruct (IH (S lo) (<[(base + lo)%nat := F lo t]> l0)) as (v' & Hrun & Hl & Hv).
    + intros i l Hi Hl. apply Hbody; [lia |].
      now rewrite Hl, length_insert.
    + rewrite length_insert. right. lia.
    + exists v'. split; [exact Hrun |].
      split; [now rewrite Hl, length_insert |].
      intros j. rewrite Hv.
      destruct (decide (j = base + lo)%nat) as [-> | Hne].
      * rewrite list_lookup_insert_eq by lia.
        repeat case_decide; try lia.
        rewrite Ht. cbn. do 2 f_equal. lia.
      * rewrite list_lookup_insert_ne by lia.
        repeat case_decide; try lia; reflexivity.
Qed.

End Field.

End Loops.

(** ** The scatter loops of one direction *)

Section Scatter.
Context (C : Collaborators).

#[local] Abbreviation buffers := (buffers C).
#[local] Notation "x <- m ;; k" := (bind C m (fun x => k))
  (at level 63, m at next level, right associativity).

Lemma values_get_set l (s : buffers) : values (set_values C l s) = l.
Proof. reflexivity. Qed.
Lemma values_set_set l l' (s : buffers) :
  set_values C l (set_values C l' s) = set_values C l s.
Proof. reflexivity. Qed.
Lemma values_set_get (s : buffers) : set_values C (values s) s = s.
Proof. now destruct s. Qed.

Lemma grads_get_set l (s : buffers) : grads (set_grads C l s) = l.
Proof. reflexivity. Qed.
Lemma grads_set_set l l' (s : buffers) :
  set_grads C l (set_grads C l' s) = set_grads C l s.
Proof. reflexivity. Qed.
Lemma grads_set_get (s : buffers) : set_grads C (grads s) s = s.
Proof. now destruct s. Qed.

Lemma grad_grads_get_set l (s : buffers) :
  grad_grads (set_grad_grads C l s) = l.
Proof. reflexivity. Qed.
Lemma grad_grads_set_set l l' (s : buffers) :
  set_grad_grads C l (set_grad_grads C l' s) = set_grad_grads C l s.
Proof. reflexivity. Qed.
Lemma grad_grads_set_get (s : buffers) :
  set_grad_grads C (grad_grads s) s = s.
Proof. now destruct s. Qed.

(** Unfolds a read of the scratch followed by a write. *)
Ltac read_scratch H :=
  unfold bind, get, at_index; cbn [p_values p_grads p_grad_grads
    set_values set_grads set_grad_grads]; rewrite H; reflexivity.

Lemma store_values_spec d n_sub (X : nat -> scalar C) (s : buffers) :
  (forall i, (i < length (p_values s))%nat -> p_values s !! i = Some (X i)) ->
  (forall i, (i < length (p_values s))%nat ->
     block_index i d n_sub = (d * n_sub + i)%nat) ->
  (length (p_values s) = 0 \/
   d * n_sub + length (p_values s) <= length (values s))%nat ->
  exists v',
    store_values C d n_sub s = (inr tt, set_values C v' s) /\
    length v' = length (values s) /\
    forall j, v' !! j
      = if decide (d * n_sub <= j < d * n_sub + length (p_values s))%nat
        then (fun t => upd1 C t d (X (j - d * n_sub)%nat)) <$> values s !! j
        else values s !! j.
Proof.
  intros HX Hidx Hlen.
  destruct (scatter_range C values (set_values C) values_get_set
              values_set_set
              (fun i => s <- get C ;; x <- at_index C (p_values s) i ;;
                 modify_value C (block_index i d n_sub)
                   (fun t => upd1 C t d x))
              (fun i t => upd1 C t d (X i)) (d * n_sub)%nat s
              (length (p_values s)) 0%nat (values s))
    as (v' & Hrun & Hl & Hv).
  - intros i l Hi _. rewrite <- Hidx by lia.
    read_scratch (HX i ltac:(lia)).
  - lia.
  - exists v'. rewrite values_set_get in Hrun.
    split; [exact Hrun |]. split; [exact Hl |].
    intros j. rewrite Hv.
    replace (d * n_sub + 0)%nat with (d * n_sub)%nat by lia. reflexivity.
Qed.

Lemma store_grads_spec dim d n_sub (G : nat -> Tensor1 C) (s : buffers) :
  (forall i, (i < length (p_grads s))%nat -> p_grads s !! i = Some (G i)) ->
  (forall i, (i < length (p_grads s))%nat ->
     block_index i d n_sub = (d * n_sub + i)%nat) ->
  (length (p_grads s) = 0 \/
   d * n_sub + length (p_grads s) <= length (grads s))%nat ->
  exists v',
    store_grads C dim d n_sub s = (inr tt, set_grads C v' s) /\
    length v' = length (grads s) /\
    forall j, v' !! j
      = if decide (d * n_sub <= j < d * n_sub + length (p_grads s))%nat
        then write_row C dim d (G (j - d * n_sub)%nat) <$> grads s !! j
        else grads s !! j.
Proof.
  intros HG Hidx Hlen.
  destruct (scatter_range C grads (set_grads C) grads_get_set
              grads_set_set
              (fun i => for_range C 0 dim (fun d1 =>
                 s <- get C ;; g <- at_index C (p_grads s) i ;;
                 modify_grad C (block_index i d n_sub)
                   (fun t => upd2 C t d ((d1 + d) mod dim) (g d1))))
              (fun i => write_row C dim d (G i)) (d * n_sub)%nat s
              (length (p_grads s)) 0%nat (grads s))
    as (v' & Hrun & Hl & Hv).
  - intros i l Hi Hll. rewrite <- Hidx by lia.
    apply (repeated_modify C grads (set_grads C) grads_get_set grads_set_set
             _ (fun d1 t => upd2 C t d ((d1 + d) mod dim) (G i d1))).
    + intros d1 l' _ _. read_scratch (HG i ltac:(lia)).
    + apply lookup_lt_is_Some_2. rewrite Hll, Hidx by lia.
      destruct Hlen; lia.
  - lia.
  - exists v'. rewrite grads_set_get in Hrun.
    split; [exact Hrun |]. split; [exact Hl |].
    intros j. rewrite Hv.
    replace (d * n_sub + 0)%nat with (d * n_sub)%nat by lia. reflexivity.
Qed.

Lemma store_grad_grads_spec dim d n_sub (H : nat -> Tensor2 C) (s : buffers) :
  (forall i, (i < length (p_grad_grads s))%nat ->
     p_grad_grads s !! i = Some (H i)) ->
  (forall i, (i < length (p_grad_grads s))%nat ->
     block_index i d n_sub = (d * n_sub + i)%nat) ->
  (length (p_grad_grads s) = 0 \/
   d * n_sub + length (p_grad_grads s) <= length (grad_grads s))%nat ->
  exists v',
    store_grad_grads C dim d n_sub s = (inr tt, set_grad_grads C v' s) /\
    length v' = length (grad_grads s) /\
    forall j, v' !! j
      = if decide (d * n_sub <= j < d * n_sub + length (p_grad_grads s))%nat
        then write_slice C dim d (H (j - d * n_sub)%nat) <$> grad_grads s !! j
        else grad_grads s !! j.
Proof.
  intros HH Hidx Hlen.
  destruct (scatter_range C grad_grads (set_grad_grads C) grad_grads_get_set
              grad_grads_set_set
              (fun i => for_range C 0 dim (fun d1 =>
                 for_range C 0 dim (fun d2 =>
                   s <- get C ;; h <- at_index C (p_grad_grads s) i ;;
                   modify_grad_grad C (block_index i d n_sub)
                     (fun t => upd3 C t d ((d1 + d) mod dim)
                                 ((d2 + d) mod dim) (h d1 d2)))))
              (fun i => write_slice C dim d (H i)) (d * n_sub)%nat s
              (length (p_grad_grads s)) 0%nat (grad_grads s))
    as (v' & Hrun & Hl & Hv).
  - intros i l Hi Hll. rewrite <- Hidx by lia.
    apply (repeated_modify C grad_grads (set_grad_grads C)
             grad_grads_get_set grad_grads_set_set _
             (fun d1 t => foldl (fun t d2 =>
                upd3 C t d ((d1 + d) mod dim) ((d2 + d) mod dim) (H i d1 d2))
                t (seq 0 dim))).
    + intros d1 l' _ Hl'.
      apply (repeated_modify C grad_grads (set_grad_grads C)
               grad_grads_get_set grad_grads_set_set _
               (fun d2 t => upd3 C t d ((d1 + d) mod dim)
                              ((d2 + d) mod dim) (H i d1 d2))).
      * intros d2 l'' _ _. read_scratch (HH i ltac:(lia)).
      * exact Hl'.
    + apply lookup_lt_is_Some_2. rewrite Hll, Hidx by lia.
      destruct Hlen; lia.
  - lia.
  - exists v'. rewrite grad_grads_set_get in Hrun.
    split; [exact Hrun |]. split; [exact Hl |].
    intros j. rewrite Hv.
    replace (d * n_sub + 0)%nat with (d * n_sub)%nat by lia. reflexivity.
Qed.

End Scatter.

(** ** One direction, and all of them *)

Section Directions.
Context (C : Collaborators).

#[local] Abbreviation buffers := (buffers C).

Lemma size_check_true (len n : nat) :
  len = n \/ len = 0%nat ->
  (Z.of_nat len =? Z.of_nat n) || (Z.of_nat len =? 0) = true.
Proof.
  intros [-> | ->].
  - now rewrite Z.eqb_refl.
  - cbn. now rewrite orb_true_r.
Qed.

Lemma lookup_map_seq {A} (f : nat -> A) n : forall lo i,
  (i < n)%nat -> map f (seq lo n) !! i = Some (f (lo + i)%nat).
Proof.
  induction n as [| n IH]; intros lo i Hi; [lia |].
  destruct i as [| i]; cbn.
  - now rewrite Nat.add_0_r.
  - rewrite IH by lia. f_equal. f_equal. lia.
Qed.

Lemma length_map_seq {A} (f : nat -> A) n lo : length (map f (seq lo n)) = n.
Proof. revert lo. induction n as [| n IH]; intros lo; cbn; [| rewrite IH]; reflexivity. Qed.

Lemma length_resize_vec {A} n (z : A) v : length (resize_vec n z v) = n.
Proof.
  unfold resize_vec. rewrite length_app, length_take, length_replicate. lia.
Qed.

Lemma ap_compute_eq sp p (s : buffers) :
  length (p_values s) = ap_n C sp \/ length (p_values s) = 0%nat ->
  length (p_grads s) = ap_n C sp \/ length (p_grads s) = 0%nat ->
  length (p_grad_grads s) = ap_n C sp \/ length (p_grad_grads s) = 0%nat ->
  ap_compute C sp p s
  = (inr tt,
     set_scratch C
       (map (ap_value C (pols sp) p) (seq 0 (length (p_values s))))
       (map (ap_grad C (pols sp) p) (seq 0 (length (p_grads s))))
       (map (ap_grad_grad C (pols sp) p) (seq 0 (length (p_grad_grads s))))
       s).
Proof.
  intros H1 H2 H3. unfold ap_compute, bind, get, Assert.
  now rewrite !size_check_true.
Qed.

Lemma block_index_small i d n_sub :
  Z.of_nat (d * n_sub + i) < UINT_MOD ->
  block_index i d n_sub = (d * n_sub + i)%nat.
Proof.
  intros H. unfold block_index, uadd, umul.
  rewrite (uint_small (_ * _)) by (split; nia).
  rewrite uint_small by (split; nia). nia.
Qed.

Lemma block_div_mod d n_sub j :
  (d * n_sub <= j < d * n_sub + n_sub)%nat ->
  (j / n_sub = d /\ j mod n_sub = j - d * n_sub)%nat.
Proof.
  intros Hj. split; symmetry.
  - apply (Nat.div_unique j n_sub d (j - d * n_sub)); nia.
  - apply (Nat.mod_unique j n_sub d (j - d * n_sub)); nia.
Qed.

(** Composition of the effects of two adjacent ranges of entries. *)
Lemma compose_blocks {T} (E : nat -> T -> T) (l l1 l2 : list T) a b c :
  (a <= b <= c)%nat ->
  (forall j, l1 !! j
     = if decide (a <= j < b)%nat then E j <$> l !! j else l !! j) ->
  (forall j, l2 !! j
     = if decide (b <= j < c)%nat then E j <$> l1 !! j else l1 !! j) ->
  forall j, l2 !! j
     = if decide (a <= j < c)%nat then E j <$> l !! j else l !! j.
Proof.
  intros Habc H1 H2 j. rewrite H2, H1.
  repeat case_decide; try lia; reflexivity.
Qed.

(** Restating the effect on one block with the entry's own direction
    and function index. *)
Lemma block_entries {T} (F : nat -> T -> T) (E : nat -> T -> T)
    (l v : list T) d n_sub sl :
  (sl = n_sub \/ sl = 0%nat /\ l = []) ->
  (forall j, (d * n_sub <= j < d * n_sub + n_sub)%nat ->
     F (j - d * n_sub)%nat = E j) ->
  (forall j, v !! j
     = if decide (d * n_sub <= j < d * n_sub + sl)%nat
       then F (j - d * n_sub)%nat <$> l !! j else l !! j) ->
  forall j, v !! j
     = if decide (d * n_sub <= j < d * n_sub + n_sub)%nat
       then E j <$> l !! j else l !! j.
Proof.
  intros [-> | [-> ->]] HFE Hv j; rewrite Hv.
  - case_decide; [| reflexivity]. now rewrite HFE.
  - repeat case_decide; try lia; reflexivity.
Qed.

(** [compute] is its three size checks, the resizing of the scratch and
    the loop over the directions. *)
Lemma compute_unfold dim abf unit_point (s : buffers) :
  compute C dim abf unit_point s
  = if size_ok abf (length (values s)) then
      if size_ok abf (length (grads s)) then
        if size_ok abf (length (grad_grads s)) then
          for_range C 0 dim (direction_body C dim abf unit_point)
            (resized abf s)
        else (inl (ExcDimensionMismatch
                     (Z.of_nat (length (grad_grads s))) (n_pols abf)), s)
      else (inl (ExcDimensionMismatch
                   (Z.of_nat (length (grads s))) (n_pols abf)), s)
    else (inl (ExcDimensionMismatch
                 (Z.of_nat (length (values s))) (n_pols abf)), s).
Proof.
  unfold compute, bind, get, Assert, modify, size_ok, resized, ret, raise.
  destruct (_ || _); [| reflexivity].
  destruct (_ || _); [| reflexivity].
  destruct (_ || _); reflexivity.
Qed.

Lemma size_ok_true (abf : PolynomialsABF C) len :
  empty_or_full abf len -> size_ok abf len = true.
Proof.
  unfold empty_or_full, size_ok. intros [<- | ->].
  - now rewrite Z.eqb_refl.
  - cbn. now rewrite orb_true_r.
Qed.

Ltac simpl_buffers :=
  cbn [values grads grad_grads p_values p_grads p_grad_grads
       set_values set_grads set_grad_grads set_scratch] in *.

Section Instance.
Variable dim : nat.
Variable abf : PolynomialsABF C.
Variable unit_point : Point C.

Let n_sub := ap_n C (polynomial_space abf).

Hypothesis no_wrap : Z.of_nat (dim * n_sub) < UINT_MOD.

Lemma direction_body_spec d (s : buffers) :
  (d < dim)%nat ->
  sized dim n_sub (length (p_values s)) (length (values s)) ->
  sized dim n_sub (length (p_grads s)) (length (grads s)) ->
  sized dim n_sub (length (p_grad_grads s)) (length (grad_grads s)) ->
  exists s',
    direction_body C dim abf unit_point d s = (inr tt, s') /\
    (length (p_values s') = length (p_values s) /\
     length (p_grads s') = length (p_grads s) /\
     length (p_grad_grads s') = length (p_grad_grads s)) /\
    (length (values s') = length (values s) /\
     length (grads s') = length (grads s) /\
     length (grad_grads s') = length (grad_grads s)) /\
    (forall j, values s' !! j
       = if decide (d * n_sub <= j < d * n_sub + n_sub)%nat
         then entry_value C dim abf unit_point j <$> values s !! j
         else values s !! j) /\
    (forall j, grads s' !! j
       = if decide (d * n_sub <= j < d * n_sub + n_sub)%nat
         then entry_grad C dim abf unit_point j <$> grads s !! j
         else grads s !! j) /\
    (forall j, grad_grads s' !! j
       = if decide (d * n_sub <= j < d * n_sub + n_sub)%nat
         then entry_grad_grad C dim abf unit_point j <$> grad_grads s !! j
         else grad_grads s !! j).
Proof.
  intros Hd Sv Sg Sh.
  assert (Hblock : (d * n_sub + n_sub <= dim * n_sub)%nat) by nia.
  assert (Hidx : forall i, (i < n_sub)%nat ->
            block_index i d n_sub = (d * n_sub + i)%nat).
  { intros i Hi. apply block_index_small. nia. }
  unfold direction_body. fold n_sub.
  set (p := rotated_point C dim unit_point d).
  unfold bind at 1.
  rewrite ap_compute_eq by (fold n_sub; unfold sized in *; lia).
  set (s1 := set_scratch C _ _ _ s).
  destruct (store_values_spec C d n_sub
              (ap_value C (pols (polynomial_space abf)) p) s1)
    as (v' & Rv & Lv & Pv).
  { intros i Hi. unfold s1 in *. simpl_buffers.
    rewrite length_map_seq in Hi. now rewrite lookup_map_seq. }
  { intros i Hi. unfold s1 in *. simpl_buffers.
    rewrite length_map_seq in Hi.
    apply Hidx. unfold sized in *; lia. }
  { unfold s1. simpl_buffers. rewrite length_map_seq.
    unfold sized in *; lia. }
  unfold bind at 1. rewrite Rv.
  set (s2 := set_values C v' s1).
  destruct (store_grads_spec C dim d n_sub
              (ap_grad C (pols (polynomial_space abf)) p) s2)
    as (g' & Rg & Lg & Pg).
  { intros i Hi. unfold s2, s1 in *. simpl_buffers.
    rewrite length_map_seq in Hi. now rewrite lookup_map_seq. }
  { intros i Hi. unfold s2, s1 in *. simpl_buffers.
    rewrite length_map_seq in Hi.
    apply Hidx. unfold sized in *; lia. }
  { unfold s2, s1. simpl_buffers. rewrite length_map_seq.
    unfold sized in *; lia. }
  unfold bind at 1. rewrite Rg.
  set (s3 := set_grads C g' s2).
  destruct (store_grad_grads_spec C dim d n_sub
              (ap_grad_grad C (pols (polynomial_space abf)) p) s3)
    as (h' & Rh & Lh & Ph).
  { intros i Hi. unfold s3, s2, s1 in *. simpl_buffers.
    rewrite length_map_seq in Hi. now rewrite lookup_map_seq. }
  { intros i Hi. unfold s3, s2, s1 in *. simpl_buffers.
    rewrite length_map_seq in Hi.
    apply Hidx. unfold sized in *; lia. }
  { unfold s3, s2, s1. simpl_buffers. rewrite length_map_seq.
    unfold sized in *; lia. }
  rewrite Rh.
  eexists. split; [reflexivity |].
  unfold s3, s2, s1 in *. simpl_buffers.
  rewrite !length_map_seq in *.
  split; [auto |]. split; [auto |].
  assert (Hnil : forall {A} (l : list A), length l = 0%nat -> l = [])
    by (intros A l; now destruct l).
  split; [| split].
  - apply (block_entries
             (fun i t => upd1 C t d
                (ap_value C (pols (polynomial_space abf)) p i))
             _ _ _ _ _ (length (p_values s)));
      [unfold sized in Sv; destruct Sv as [[? ?] | [? ?]]; auto | | exact Pv].
    intros j Hj. destruct (block_div_mod d n_sub j Hj) as [Hq Hr].
    unfold entry_value. fold n_sub. rewrite Hq, Hr. reflexivity.
  - apply (block_entries
             (fun i => write_row C dim d
                (ap_grad C (pols (polynomial_space abf)) p i))
             _ _ _ _ _ (length (p_grads s)));
      [unfold sized in Sg; destruct Sg as [[? ?] | [? ?]]; auto | | exact Pg].
    intros j Hj. destruct (block_div_mod d n_sub j Hj) as [Hq Hr].
    unfold entry_grad. fold n_sub. rewrite Hq, Hr. reflexivity.
  - apply (block_entries
             (fun i => write_slice C dim d
                (ap_grad_grad C (pols (polynomial_space abf)) p i))
             _ _ _ _ _ (length (p_grad_grads s)));
      [unfold sized in Sh; destruct Sh as [[? ?] | [? ?]]; auto | | exact Ph].
    intros j Hj. destruct (block_div_mod d n_sub j Hj) as [Hq Hr].
    unfold entry_grad_grad. fold n_sub. rewrite Hq, Hr. reflexivity.
Qed.

Lemma directions_spec count : forall lo (s : buffers),
  (lo + count <= dim)%nat ->
  sized dim n_sub (length (p_values s)) (length (values s)) ->
  sized dim n_sub (length (p_grads s)) (length (grads s)) ->
  sized dim n_sub (length (p_grad_grads s)) (length (grad_grads s)) ->
  exists s',
    for_range C lo count (direction_body C dim abf unit_point) s
      = (inr tt, s') /\
    (length (values s') = length (values s) /\
     length (grads s') = length (grads s) /\
     length (grad_grads s') = length (grad_grads s)) /\
    (forall j, values s' !! j
       = if decide (lo * n_sub <= j < lo * n_sub + count * n_sub)%nat
         then entry_value C dim abf unit_point j <$> values s !! j
         else values s !! j) /\
    (forall j, grads s' !! j
       = if decide (lo * n_sub <= j < lo * n_sub + count * n_sub)%nat
         then entry_grad C dim abf unit_point j <$> grads s !! j
         else grads s !! j) /\
    (forall j, grad_grads s' !! j
       = if decide (lo * n_sub <= j < lo * n_sub + count * n_sub)%nat
         then entry_grad_grad C dim abf unit_point j <$> grad_grads s !! j
         else grad_grads s !! j).
Proof.
  induction count as [| n IH]; intros lo s Hlo Sv Sg Sh.
  - exists s. split; [reflexivity |]. split; [auto |].
    repeat split; intros j; case_decide; try lia; reflexivity.
  - destruct (direction_body_spec lo s ltac:(lia) Sv Sg Sh)
      as (s1 & R1 & (Lp1 & Lp2 & Lp3) & (Lo1 & Lo2 & Lo3) & P1 & P2 & P3).
    destruct (IH (S lo) s1 ltac:(lia)) as (s' & R & (L1 & L2 & L3) & Q1 & Q2 & Q3).
    { now rewrite Lp1, Lo1. }
    { now rewrite Lp2, Lo2. }
    { now rewrite Lp3, Lo3. }
    exists s'. rewrite for_range_succ, R1.
    split; [exact R |].
    split; [split; [| split]; congruence |].
    assert (E1 : (S lo * n_sub = lo * n_sub + n_sub)%nat) by lia.
    assert (E2 : (lo * n_sub + S n * n_sub
                  = lo * n_sub + n_sub + n * n_sub)%nat) by lia.
    rewrite E1 in Q1, Q2, Q3.
    split; [| split]; rewrite E2.
    + eapply compose_blocks; [| exact P1 | exact Q1]. lia.
    + eapply compose_blocks; [| exact P2 | exact Q2]. lia.
    + eapply compose_blocks; [| exact P3 | exact Q3]. lia.
Qed.

(** The complete effect of the loop over the directions, started right
    after the scratch has been resized, when every output vector is empty
    or holds [dim * n_sub] entries: it returns normally and entry [j] of
    each vector is rewritten by the closed forms above. *)
Lemma loop_spec (s : buffers) :
  (length (values s) = 0 \/ length (values s) = dim * n_sub)%nat ->
  (length (grads s) = 0 \/ length (grads s) = dim * n_sub)%nat ->
  (length (grad_grads s) = 0 \/ length (grad_grads s) = dim * n_sub)%nat ->
  exists s',
    for_range C 0 dim (direction_body C dim abf unit_point) (resized abf s)
      = (inr tt, s') /\
    (length (values s') = length (values s) /\
     length (grads s') = length (grads s) /\
     length (grad_grads s') = length (grad_grads s)) /\
    (forall j, values s' !! j
       = entry_value C dim abf unit_point j <$> values s !! j) /\
    (forall j, grads s' !! j
       = entry_grad C dim abf unit_point j <$> grads s !! j) /\
    (forall j, grad_grads s' !! j
       = entry_grad_grad C dim abf unit_point j <$> grad_grads s !! j).
Proof.
  intros Lv Lg Lh. unfold resized. fold n_sub.
  set (s0 := set_scratch C _ _ _ s).
  destruct (directions_spec dim 0 s0 ltac:(lia))
    as (s' & R & (L1 & L2 & L3) & Q1 & Q2 & Q3).
  { unfold s0; simpl_buffers. rewrite length_resize_vec. unfold sized.
    destruct (Nat.eqb_spec (length (values s)) 0); lia. }
  { unfold s0; simpl_buffers. rewrite length_resize_vec. unfold sized.
    destruct (Nat.eqb_spec (length (grads s)) 0); lia. }
  { unfold s0; simpl_buffers. rewrite length_resize_vec. unfold sized.
    destruct (Nat.eqb_spec (length (grad_grads s)) 0); lia. }
  exists s'. split; [exact R |].
  unfold s0 in *; simpl_buffers.
  split; [auto |].
  split; [| split]; intros j.
  - rewrite Q1. case_decide; [reflexivity |].
    rewrite lookup_ge_None_2 by lia. reflexivity.
  - rewrite Q2. case_decide; [reflexivity |].
    rewrite lookup_ge_None_2 by lia. reflexivity.
  - rewrite Q3. case_decide; [reflexivity |].
    rewrite lookup_ge_None_2 by lia. reflexivity.
Qed.

(** When moreover [n_pols = dim * n_sub], the size checks pass and this
    is the effect of [compute]. *)
Lemma compute_runs_loop (s : buffers) :
  n_pols abf = Z.of_nat (dim * n_sub) ->
  (length (values s) = 0 \/ length (values s) = dim * n_sub)%nat ->
  (length (grads s) = 0 \/ length (grads s) = dim * n_sub)%nat ->
  (length (grad_grads s) = 0 \/ length (grad_grads s) = dim * n_sub)%nat ->
  compute C dim abf unit_point s
  = for_range C 0 dim (direction_body C dim abf unit_point) (resized abf s).
Proof.
  intros Hn Lv Lg Lh. rewrite compute_unfold.
  rewrite !size_ok_true; [reflexivity | | |]; unfold empty_or_full; lia.
Qed.

Lemma compute_spec (s : buffers) :
  n_pols abf = Z.of_nat (dim * n_sub) ->
  (length (values s) = 0 \/ length (values s) = dim * n_sub)%nat ->
  (length (grads s) = 0 \/ length (grads s) = dim * n_sub)%nat ->
  (length (grad_grads s) = 0 \/ length (grad_grads s) = dim * n_sub)%nat ->
  exists s',
    compute C dim abf unit_point s = (inr tt, s') /\
    (length (values s') = length (values s) /\
     length (grads s') = length (grads s) /\
     length (grad_grads s') = length (grad_grads s)) /\
    (forall j, values s' !! j
       = entry_value C dim abf unit_point j <$> values s !! j) /\
    (forall j, grads s' !! j
       = entry_grad C dim abf unit_point j <$> grads s !! j) /\
    (forall j, grad_grads s' !! j
       = entry_grad_grad C dim abf unit_point j <$> grad_grads s !! j).
Proof.
  intros Hn Lv Lg Lh. rewrite (compute_runs_loop s Hn Lv Lg Lh).
  now apply loop_spec.
Qed.

End Instance.

End Directions.

(** ** The size checks, and the scratch members *)

Section Checks.
Context (C : Collaborators).

#[local] Abbreviation buffers := (buffers C).

Lemma size_ok_false (abf : PolynomialsABF C) len :
  Z.of_nat len <> n_pols abf -> len <> 0%nat -> size_ok abf len = false.
Proof.
  intros H1 H2. unfold size_ok.
  destruct (Z.eqb_spec (Z.of_nat len) (n_pols abf)); [contradiction |].
  destruct (Z.eqb_spec (Z.of_nat len) 0); [lia | reflexivity].
Qed.

(** C4: each of the three output vectors must be empty or hold exactly
    [n_pols] entries; as soon as one of them has another length, [compute]
    raises [ExcDimensionMismatch] (with the offending size and [n_pols]),
    and it does so before any write: all buffers are as they were. *)
Theorem compute_dimension_mismatch dim abf unit_point (s : buffers) :
  let bad (len : nat) := Z.of_nat len <> n_pols abf /\ len <> 0%nat in
  bad (length (values s)) \/ bad (length (grads s))
    \/ bad (length (grad_grads s)) ->
  exists size,
    compute C dim abf unit_point s
      = (inl (ExcDimensionMismatch size (n_pols abf)), s) /\
    (size = Z.of_nat (length (values s)) /\ bad (length (values s)) \/
     size = Z.of_nat (length (grads s)) /\ bad (length (grads s)) \/
     size = Z.of_nat (length (grad_grads s)) /\ bad (length (grad_grads s))).
Proof.
  intros bad Hbad. rewrite compute_unfold.
  assert (Hf : forall len, size_ok abf len = false -> bad len).
  { intros len. unfold size_ok, bad.
    destruct (Z.eqb_spec (Z.of_nat len) (n_pols abf));
      destruct (Z.eqb_spec (Z.of_nat len) 0); cbn; try discriminate.
    intros _. lia. }
  destruct (size_ok abf (length (values s))) eqn:Ev;
    [| eexists; split; [reflexivity | left; auto]].
  destruct (size_ok abf (length (grads s))) eqn:Eg;
    [| eexists; split; [reflexivity | right; left; auto]].
  destruct (size_ok abf (length (grad_grads s))) eqn:Eh;
    [| eexists; split; [reflexivity | right; right; auto]].
  exfalso. destruct Hbad as [[? ?] | [[? ?] | [? ?]]].
  - rewrite size_ok_false in Ev by assumption. discriminate.
  - rewrite size_ok_false in Eg by assumption. discriminate.
  - rewrite size_ok_false in Eh by assumption. discriminate.
Qed.

(** The anisotropic space overwrites the scratch: what it leaves depends
    on the sizes of the scratch vectors only. *)
Lemma ap_compute_overwrites sp p (s1 s2 : buffers) :
  same_outputs s1 s2 -> same_sizes s1 s2 ->
  ap_compute C sp p s1 = ap_compute C sp p s2 \/
  exists e, ap_compute C sp p s1 = (inl e, s1)
            /\ ap_compute C sp p s2 = (inl e, s2).
Proof.
  destruct s1 as [v1 g1 h1 pv1 pg1 ph1], s2 as [v2 g2 h2 pv2 pg2 ph2].
  intros (Ev & Eg & Eh) (Lv & Lg & Lh). cbn in *. subst v2 g2 h2.
  unfold ap_compute, bind, get, Assert, modify, ret, raise. cbn.
  rewrite Lv, Lg, Lh.
  destruct (_ || _); [| right; eauto].
  destruct (_ || _); [| right; eauto].
  destruct (_ || _); [| right; eauto].
  left. reflexivity.
Qed.

Lemma direction_body_overwrites dim abf unit_point d (s1 s2 : buffers) :
  same_outputs s1 s2 -> same_sizes s1 s2 ->
  direction_body C dim abf unit_point d s1
    = direction_body C dim abf unit_point d s2 \/
  exists e, direction_body C dim abf unit_point d s1 = (inl e, s1)
            /\ direction_body C dim abf unit_point d s2 = (inl e, s2).
Proof.
  intros Ho Hl.
  destruct (ap_compute_overwrites (polynomial_space abf)
              (rotated_point C dim unit_point d) _ _ Ho Hl)
    as [E | (e & E1 & E2)];
    change (direction_body C dim abf unit_point d) with
      (bind C (ap_compute C (polynomial_space abf)
                 (rotated_point C dim unit_point d))
         (fun _ => bind C (store_values C d (ap_n C (polynomial_space abf)))
            (fun _ => bind C
               (store_grads C dim d (ap_n C (polynomial_space abf)))
               (fun _ => store_grad_grads C dim d
                           (ap_n C (polynomial_space abf))))));
    set (rest := fun _ : unit => bind C _ _); unfold bind.
  - left. now rewrite E.
  - right. exists e. now rewrite E1, E2.
Qed.

Lemma compute_ignores_scratch dim abf unit_point (s1 s2 : buffers) :
  same_outputs s1 s2 ->
  fst (compute C dim abf unit_point s1) = fst (compute C dim abf unit_point s2)
  /\ same_outputs (snd (compute C dim abf unit_point s1))
                  (snd (compute C dim abf unit_point s2)).
Proof.
  intros Hs. pose proof Hs as (Ev & Eg & Eh).
  rewrite !compute_unfold. rewrite <- Ev, <- Eg, <- Eh.
  destruct (size_ok abf (length (values s1))); [| split; [reflexivity | exact Hs]].
  destruct (size_ok abf (length (grads s1))); [| split; [reflexivity | exact Hs]].
  destruct (size_ok abf (length (grad_grads s1)));
    [| split; [reflexivity | exact Hs]].
  assert (Ho : same_outputs (resized abf s1) (resized abf s2)) by exact Hs.
  assert (Hl : same_sizes (resized abf s1) (resized abf s2)).
  { unfold same_sizes, resized. cbn.
    rewrite !length_resize_vec, <- Ev, <- Eg, <- Eh. auto. }
  destruct dim as [| n]; [split; [reflexivity | exact Ho] |].
  rewrite !for_range_succ.
  destruct (direction_body_overwrites (S n) abf unit_point 0%nat _ _ Ho Hl)
    as [E | (e & E1 & E2)].
  - rewrite E. split; [reflexivity |]. repeat split; reflexivity.
  - rewrite E1, E2. split; [reflexivity | exact Ho].
Qed.

(** Two consecutive calls of [compute] on the same object and point,
    the second with output vectors supplied anew with the contents the
    first call was given, have the same outcome and leave the same output
    vectors: the scratch members carried over from the first call have no
    influence. *)
Theorem compute_twice dim abf unit_point (s : buffers) :
  let first := compute C dim abf unit_point s in
  let second := compute C dim abf unit_point (with_outputs s (snd first)) in
  fst first = fst second /\
  values (snd first) = values (snd second) /\
  grads (snd first) = grads (snd second) /\
  grad_grads (snd first) = grad_grads (snd second).
Proof.
  intros first second.
  apply (compute_ignores_scratch dim abf unit_point s
           (with_outputs s (snd first))).
  repeat split; reflexivity.
Qed.

End Checks.

(** ** Rotating the point, un-rotating the derivative indices *)

Section Rotation.
Context (C : Collaborators).

#[local] Open Scope nat_scope.

Lemma rotation_injective dim d d1 d2 :
  (d1 < dim)%nat -> (d2 < dim)%nat ->
  ((d1 + d) mod dim = (d2 + d) mod dim)%nat -> d1 = d2.
Proof.
  intros H1 H2 E.
  pose proof (Nat.div_mod_eq (d1 + d) dim) as Q1.
  pose proof (Nat.div_mod_eq (d2 + d) dim) as Q2.
  rewrite E in Q1.
  destruct (Nat.lt_trichotomy ((d1 + d) / dim) ((d2 + d) / dim))
    as [Hlt | [Heq | Hgt]]; nia.
Qed.

Lemma foldl_seq_succ {A} (f : A -> nat -> A) (a : A) n :
  foldl f a (seq 0 (S n)) = f (foldl f a (seq 0 n)) n.
Proof. now rewrite seq_S, foldl_app. Qed.

Lemma upd1_same (t : Tensor1 C) c x : upd1 C t c x c = x.
Proof. unfold upd1. now rewrite Nat.eqb_refl. Qed.

Lemma upd1_other (t : Tensor1 C) c c' x : c' <> c -> upd1 C t c x c' = t c'.
Proof. intros H. unfold upd1. now destruct (Nat.eqb_spec c' c). Qed.

Lemma upd2_same (t : Tensor2 C) r c x : upd2 C t r c x r c = x.
Proof. unfold upd2. rewrite Nat.eqb_refl. apply upd1_same. Qed.

Lemma upd2_other (t : Tensor2 C) r c r' c' x :
  r' <> r \/ c' <> c -> upd2 C t r c x r' c' = t r' c'.
Proof.
  intros H. unfold upd2. destruct (Nat.eqb_spec r' r); [| reflexivity].
  apply upd1_other. destruct H; congruence.
Qed.

Lemma upd3_same (t : Tensor3 C) a b c x : upd3 C t a b c x a b c = x.
Proof. unfold upd3. rewrite Nat.eqb_refl. apply upd2_same. Qed.

Lemma upd3_other (t : Tensor3 C) a b c a' b' c' x :
  a' <> a \/ b' <> b \/ c' <> c -> upd3 C t a b c x a' b' c' = t a' b' c'.
Proof.
  intros H. unfold upd3. destruct (Nat.eqb_spec a' a); [| reflexivity].
  apply upd2_other. destruct H as [H | [H | H]]; auto; congruence.
Qed.

(** The coordinates of the rotated point. *)
Lemma rotated_point_lookup dim (unit_point : Point C) d c :
  (c < dim)%nat ->
  rotated_point C dim unit_point d !! c
  = Some (nth ((c + d) mod dim) unit_point (scalar_zero C)).
Proof.
  unfold rotated_point.
  pose (f := fun c => nth ((c + d) mod dim) unit_point (scalar_zero C)).
  change (c < dim ->
          foldl (fun p c => <[c := f c]> p)
            (replicate dim (scalar_zero C)) (seq 0 dim) !! c
          = Some (f c))%nat.
  assert (H : forall n, (n <= dim)%nat -> forall c, (c < dim)%nat ->
    foldl (fun p c => <[c := f c]> p) (replicate dim (scalar_zero C)) (seq 0 n)
      !! c
    = if decide (c < n)%nat then Some (f c) else Some (scalar_zero C)).
  { induction n as [| n IH]; intros Hn c' Hc.
    - cbn. now apply lookup_replicate_2.
    - rewrite foldl_seq_succ.
      assert (Hlen : forall m, length (foldl (fun p c => <[c := f c]> p)
                       (replicate dim (scalar_zero C)) (seq 0 m)) = dim).
      { induction m as [| m IHm]; [apply length_replicate |].
        now rewrite foldl_seq_succ, length_insert. }
      destruct (decide (c' = n)) as [-> | Hne].
      + rewrite list_lookup_insert_eq by (rewrite Hlen; lia).
        case_decide; [reflexivity | lia].
      + rewrite list_lookup_insert_ne by congruence.
        rewrite IH by lia. repeat case_decide; try lia; reflexivity. }
  intros Hc. rewrite (H dim (Nat.le_refl _) c Hc).
  case_decide; [reflexivity | lia].
Qed.

(** Row [d] of the gradient entry holds the scratch gradient with its
    index moved from [d1] to [(d1+d)%dim]; no other row is touched. *)
Lemma write_row_same dim d (g : Tensor1 C) (t : Tensor2 C) d1 :
  (d1 < dim)%nat -> write_row C dim d g t d ((d1 + d) mod dim) = g d1.
Proof.
  unfold write_row.
  assert (H : forall n, (n <= dim)%nat -> forall d1, (d1 < n)%nat ->
    foldl (fun t d1 => upd2 C t d ((d1 + d) mod dim) (g d1)) t (seq 0 n)
      d ((d1 + d) mod dim) = g d1).
  { induction n as [| n IH]; intros Hn e He; [lia |].
    rewrite foldl_seq_succ.
    destruct (decide (e = n)) as [-> | Hne]; [apply upd2_same |].
    rewrite upd2_other; [apply IH; lia |].
    right. intros E. apply Hne.
    apply (rotation_injective dim d); [lia | lia | exact E]. }
  intros Hd. now apply (H dim).
Qed.

Lemma write_row_frame dim d (g : Tensor1 C) (t : Tensor2 C) r c :
  r <> d -> write_row C dim d g t r c = t r c.
Proof.
  intros Hr. unfold write_row.
  assert (H : forall n,
    foldl (fun t d1 => upd2 C t d ((d1 + d) mod dim) (g d1)) t (seq 0 n) r c
    = t r c).
  { induction n as [| n IH]; [reflexivity |].
    rewrite foldl_seq_succ, upd2_other by auto. exact IH. }
  apply H.
Qed.

(** The same for slice [d] of the Hessian entry, in both indices. *)
Lemma write_slice_same dim d (h : Tensor2 C) (t : Tensor3 C) d1 d2 :
  (d1 < dim)%nat -> (d2 < dim)%nat ->
  write_slice C dim d h t d ((d1 + d) mod dim) ((d2 + d) mod dim) = h d1 d2.
Proof.
  unfold write_slice.
  set (inner := fun (t : Tensor3 C) d1 =>
         foldl (fun t d2 =>
                  upd3 C t d ((d1 + d) mod dim) ((d2 + d) mod dim) (h d1 d2))
               t (seq 0 dim)).
  assert (Hin : forall e1 t n, (n <= dim)%nat -> forall e2, (e2 < n)%nat ->
    foldl (fun t d2 =>
             upd3 C t d ((e1 + d) mod dim) ((d2 + d) mod dim) (h e1 d2))
          t (seq 0 n) d ((e1 + d) mod dim) ((e2 + d) mod dim) = h e1 e2).
  { intros e1 t0. induction n as [| n IH]; intros Hn e2 He; [lia |].
    rewrite foldl_seq_succ.
    destruct (decide (e2 = n)) as [-> | Hne]; [apply upd3_same |].
    rewrite upd3_other; [apply IH; lia |].
    right; right. intros E. apply Hne.
    apply (rotation_injective dim d); [lia | lia | exact E]. }
  assert (Hout : forall e1 t n b c, b <> ((e1 + d) mod dim)%nat ->
    foldl (fun t d2 =>
             upd3 C t d ((e1 + d) mod dim) ((d2 + d) mod dim) (h e1 d2))
          t (seq 0 n) d b c = t d b c).
  { intros e1 t0 n b c Hb. induction n as [| n IH]; [reflexivity |].
    rewrite foldl_seq_succ, upd3_other by auto. exact IH. }
  assert (H : forall n, (n <= dim)%nat -> forall e1 e2,
    (e1 < n)%nat -> (e2 < dim)%nat ->
    foldl inner t (seq 0 n) d ((e1 + d) mod dim) ((e2 + d) mod dim)
    = h e1 e2).
  { induction n as [| n IH]; intros Hn e1 e2 H1 H2; [lia |].
    rewrite foldl_seq_succ. unfold inner at 1.
    destruct (decide (e1 = n)) as [-> | Hne]; [now apply Hin |].
    rewrite Hout; [apply IH; lia |].
    intros E. apply Hne.
    apply (rotation_injective dim d); [lia | lia | exact E]. }
  intros H1 H2. now apply (H dim).
Qed.

Lemma write_slice_frame dim d (h : Tensor2 C) (t : Tensor3 C) a b c :
  a <> d -> write_slice C dim d h t a b c = t a b c.
Proof.
  intros Ha. unfold write_slice.
  assert (Hin : forall e1 t n,
    foldl (fun t d2 =>
             upd3 C t d ((e1 + d) mod dim) ((d2 + d) mod dim) (h e1 d2))
          t (seq 0 n) a b c = t a b c).
  { intros e1 t0 n. induction n as [| n IH]; [reflexivity |].
    rewrite foldl_seq_succ, upd3_other by auto. exact IH. }
  assert (H : forall n,
    foldl (fun t d1 =>
             foldl (fun t d2 =>
                      upd3 C t d ((d1 + d) mod dim) ((d2 + d) mod dim)
                           (h d1 d2))
                   t (seq 0 dim))
          t (seq 0 n) a b c = t a b c).
  { induction n as [| n IH]; [reflexivity |].
    rewrite foldl_seq_succ. cbv beta. rewrite Hin. exact IH. }
  apply H.
Qed.

End Rotation.

(** ** What [compute] stores, and what it leaves alone *)

Section Evaluate.
Context (C : Collaborators).

#[local] Abbreviation buffers := (buffers C).
#[local] Open Scope nat_scope.

Lemma empty_or_full_nat abf dim len :
  n_pols abf = Z.of_nat (dim * ap_n C (polynomial_space abf)) ->
  empty_or_full abf len ->
  len = 0 \/ len = dim * ap_n C (polynomial_space abf).
Proof. unfold empty_or_full. lia. Qed.

Lemma block_index_entry d n_sub i :
  i < n_sub -> (i + d * n_sub) / n_sub = d /\ (i + d * n_sub) mod n_sub = i.
Proof.
  intros Hi. destruct (block_div_mod d n_sub (i + d * n_sub)) as [Hq Hr];
    [lia |].
  split; [exact Hq | rewrite Hr; lia].
Qed.

(** For every [dim], object and point, the loop of [compute] over the
    directions [d < dim], run on output vectors that
    are empty or have room for the [dim] blocks of [n_sub] entries it
    writes, returns normally; [compute] is this loop after its size checks,
    so it returns the same whenever [n_pols = dim * n_sub].  For every
    direction [d]: the anisotropic space is evaluated at the point [p] with
    [p[c] = point[(c+d)%dim]], and for every scalar function [i]
    [grads[i + d*n_sub][d][(d1+d)%dim] = scratch_grad[i][d1]] and
    [grad_grads[i + d*n_sub][d][(d1+d)%dim][(d2+d)%dim]
      = scratch_hess[i][d1][d2]] for all [d1, d2 < dim]. *)
Theorem compute_stores_derivatives dim abf (unit_point : Point C)
    (s : buffers) :
  let n_sub := ap_n C (polynomial_space abf) in
  let fams := pols (polynomial_space abf) in
  (Z.of_nat (dim * n_sub) < UINT_MOD)%Z ->
  length (values s) = 0 \/ length (values s) = dim * n_sub ->
  length (grads s) = 0 \/ length (grads s) = dim * n_sub ->
  length (grad_grads s) = 0 \/ length (grad_grads s) = dim * n_sub ->
  exists s',
    for_range C 0 dim (direction_body C dim abf unit_point) (resized abf s)
      = (inr tt, s') /\
    (n_pols abf = Z.of_nat (dim * n_sub) ->
     compute C dim abf unit_point s = (inr tt, s')) /\
    forall d, d < dim ->
      let p := rotated_point C dim unit_point d in
      (forall c, c < dim ->
         p !! c = Some (nth ((c + d) mod dim) unit_point (scalar_zero C))) /\
      forall i, i < n_sub ->
        (grads s <> [] ->
         exists t, grads s' !! (i + d * n_sub) = Some t /\
           forall d1, d1 < dim ->
             t d ((d1 + d) mod dim) = ap_grad C fams p i d1) /\
        (grad_grads s <> [] ->
         exists t, grad_grads s' !! (i + d * n_sub) = Some t /\
           forall d1 d2, d1 < dim -> d2 < dim ->
             t d ((d1 + d) mod dim) ((d2 + d) mod dim)
             = ap_grad_grad C fams p i d1 d2).
Proof.
  intros n_sub fams Hw Lv Lg Lh.
  destruct (loop_spec C dim abf unit_point Hw s Lv Lg Lh)
    as (s' & R & _ & _ & Q2 & Q3).
  exists s'. split; [exact R |].
  split; [intros Hn; now rewrite compute_runs_loop |].
  intros d Hd p. split; [intros c Hc; now apply rotated_point_lookup |].
  intros i Hi.
  destruct (block_index_entry d n_sub i Hi) as [Hq Hm].
  assert (Hj : i + d * n_sub < dim * n_sub) by nia.
  split; intros Hne.
  - destruct (lookup_lt_is_Some_2 (grads s) (i + d * n_sub)) as [t0 Ht0].
    { destruct Lg as [E | E]; [| fold n_sub in E; lia].
      destruct (grads s); [congruence | discriminate]. }
    eexists. split; [rewrite Q2, Ht0; reflexivity |].
    intros d1 Hd1. unfold entry_grad. fold n_sub. rewrite Hq, Hm.
    now apply write_row_same.
  - destruct (lookup_lt_is_Some_2 (grad_grads s) (i + d * n_sub)) as [t0 Ht0].
    { destruct Lh as [E | E]; [| fold n_sub in E; lia].
      destruct (grad_grads s); [congruence | discriminate]. }
    eexists. split; [rewrite Q3, Ht0; reflexivity |].
    intros d1 d2 Hd1 Hd2. unfold entry_grad_grad. fold n_sub. rewrite Hq, Hm.
    now apply write_slice_same.
Qed.

(** The values, with the same premises: component [d] of entry
    [i + d*n_sub] receives the [i]-th scalar value at the rotated point
    and the other components keep what the caller had put there. *)
Lemma compute_stores_values dim abf (unit_point : Point C) (s : buffers) :
  let n_sub := ap_n C (polynomial_space abf) in
  n_pols abf = Z.of_nat (dim * n_sub) ->
  (n_pols abf < UINT_MOD)%Z ->
  empty_or_full abf (length (values s)) ->
  empty_or_full abf (length (grads s)) ->
  empty_or_full abf (length (grad_grads s)) ->
  exists s',
    compute C dim abf unit_point s = (inr tt, s') /\
    (length (values s') = length (values s) /\
     length (grads s') = length (grads s) /\
     length (grad_grads s') = length (grad_grads s)) /\
    forall d i, d < dim -> i < n_sub -> values s <> [] ->
      exists t t',
        values s !! (i + d * n_sub) = Some t /\
        values s' !! (i + d * n_sub) = Some t' /\
        t' d = ap_value C (pols (polynomial_space abf))
                 (rotated_point C dim unit_point d) i /\
        forall c, c <> d -> t' c = t c.
Proof.
  intros n_sub Hn Hr Ev Eg Eh.
  destruct (compute_spec C dim abf unit_point ltac:(fold n_sub; lia) s Hn)
    as (s' & R & L & Q1 & _ & _);
    try (apply (empty_or_full_nat abf dim); assumption).
  exists s'. split; [exact R |]. split; [exact L |].
  intros d i Hd Hi Hne.
  destruct (block_index_entry d n_sub i Hi) as [Hq Hm].
  assert (Hj : i + d * n_sub < dim * n_sub) by nia.
  destruct (lookup_lt_is_Some_2 (values s) (i + d * n_sub)) as [t0 Ht0].
  { destruct (empty_or_full_nat abf dim _ Hn Ev) as [E | E];
      [destruct (values s); [congruence | discriminate] | fold n_sub in E; lia]. }
  exists t0. eexists. split; [exact Ht0 |].
  split; [rewrite Q1, Ht0; reflexivity |].
  unfold entry_value. fold n_sub. rewrite Hq, Hm.
  split; [apply upd1_same | intros c Hc; now apply upd1_other].
Qed.

(** The loop of [compute] over the directions, run on output vectors
    that are empty or
    have room for the [dim] blocks of [n_sub] entries, returns normally
    (and so does [compute], which is this loop after its size checks,
    whenever [n_pols = dim * n_sub]); no vector changes its length (an empty
    one stays empty), and in entry [i + d*n_sub] every component of [values]
    other than [d], every row of [grads] other than [d] and every slice of
    [grad_grads] other than [d] is exactly what it was before the call. *)
Theorem compute_frame dim abf (unit_point : Point C) (s : buffers) :
  let n_sub := ap_n C (polynomial_space abf) in
  (Z.of_nat (dim * n_sub) < UINT_MOD)%Z ->
  length (values s) = 0 \/ length (values s) = dim * n_sub ->
  length (grads s) = 0 \/ length (grads s) = dim * n_sub ->
  length (grad_grads s) = 0 \/ length (grad_grads s) = dim * n_sub ->
  exists s',
    for_range C 0 dim (direction_body C dim abf unit_point) (resized abf s)
      = (inr tt, s') /\
    (n_pols abf = Z.of_nat (dim * n_sub) ->
     compute C dim abf unit_point s = (inr tt, s')) /\
    (length (values s') = length (values s) /\
     length (grads s') = length (grads s) /\
     length (grad_grads s') = length (grad_grads s)) /\
    forall d i, i < n_sub ->
      (forall t : Tensor1 C, values s !! (i + d * n_sub) = Some t ->
         exists t', values s' !! (i + d * n_sub) = Some t' /\
           forall c, c <> d -> t' c = t c) /\
      (forall t : Tensor2 C, grads s !! (i + d * n_sub) = Some t ->
         exists t', grads s' !! (i + d * n_sub) = Some t' /\
           forall r c, r <> d -> t' r c = t r c) /\
      (forall t : Tensor3 C, grad_grads s !! (i + d * n_sub) = Some t ->
         exists t', grad_grads s' !! (i + d * n_sub) = Some t' /\
           forall a b c, a <> d -> t' a b c = t a b c).
Proof.
  intros n_sub Hw Lv Lg Lh.
  destruct (loop_spec C dim abf unit_point Hw s Lv Lg Lh)
    as (s' & R & L & Q1 & Q2 & Q3).
  exists s'. split; [exact R |].
  split; [intros Hn; now rewrite compute_runs_loop |].
  split; [exact L |].
  intros d i Hi.
  destruct (block_index_entry d n_sub i Hi) as [Hq Hm].
  split; [| split]; intros t Ht; eexists.
  - split; [rewrite Q1, Ht; reflexivity |].
    intros c Hc. unfold entry_value. fold n_sub. rewrite Hq.
    now apply upd1_other.
  - split; [rewrite Q2, Ht; reflexivity |].
    intros r c Hr'. unfold entry_grad. fold n_sub. rewrite Hq.
    now apply write_row_frame.
  - split; [rewrite Q3, Ht; reflexivity |].
    intros a b c Ha. unfold entry_grad_grad. fold n_sub. rewrite Hq.
    now apply write_slice_frame.
Qed.

End Evaluate.

(** ** The constructed object: stored count against the space's size *)

Section Constructed.
Context (C : Collaborators).
Hypothesis bases : complete_bases C.

#[local] Abbreviation buffers := (buffers C).

Lemma other_family_size k :
  0 <= k ->
  length (if k =? 0 then Legendre_basis C 0
          else LagrangeEquidistant_basis C k) = Z.to_nat (k + 1).
Proof.
  intros Hk. destruct (Z.eqb_spec k 0) as [-> | Hne].
  - now destruct (bases 0 ltac:(lia)).
  - now destruct (bases k Hk).
Qed.

(** The size [n()] of the anisotropic space the constructor builds. *)
Lemma constructed_n_sub dim k abf :
  0 <= k -> k + 2 < UINT_MOD ->
  PolynomialsABF_new C dim k = inr abf ->
  Z.of_nat (ap_n C (polynomial_space abf))
  = match dim with
    | 1%nat => k + 3
    | 2%nat => (k + 3) * (k + 1)
    | 3%nat => (k + 3) * (k + 1) * (k + 1)
    | _ => Z.of_nat (ap_n C (polynomial_space abf))
    end.
Proof.
  intros Hk Hk2 Hnew. unfold PolynomialsABF_new in Hnew.
  destruct (compute_n_pols dim k) as [e | n]; [discriminate |].
  injection Hnew as <-. cbn [polynomial_space]. unfold ap_n. cbn [pols].
  destruct dim as [| [| [| [| dim]]]]; try reflexivity;
    rewrite constructor_pols_eq by lia;
    cbn [replicate foldr Nat.sub];
    rewrite ?other_family_size by lia;
    destruct (bases (uadd k 2)) as [-> _];
    try (unfold uadd; rewrite uint_small by lia; lia);
    unfold uadd; rewrite uint_small by lia; nia.
Qed.

(** In two dimensions the stored count is [dim * n_sub]. *)
Lemma constructed_dim2 k abf :
  0 <= k -> 2 * (k + 1) * (k + 3) < 2 ^ 32 ->
  PolynomialsABF_new C 2 k = inr abf ->
  n_pols abf = 2 * (k + 1) * (k + 3) /\
  Z.of_nat (ap_n C (polynomial_space abf)) = (k + 3) * (k + 1) /\
  n_pols abf = Z.of_nat (2 * ap_n C (polynomial_space abf)).
Proof.
  intros Hk Hs Hnew.
  assert (Hk2 : k + 2 < UINT_MOD) by (rewrite UINT_MOD_eq; nia).
  pose proof (constructed_n_sub 2 k abf Hk Hk2 Hnew) as Hsub.
  cbn in Hsub.
  assert (Hn : n_pols abf = 2 * (k + 1) * (k + 3)).
  { unfold PolynomialsABF_new in Hnew.
    destruct (compute_n_pols_mod k) as (_ & H2 & _). rewrite H2 in Hnew.
    injection Hnew as <-. cbn. apply uint_small. rewrite UINT_MOD_eq. nia. }
  repeat split; [exact Hn | exact Hsub | lia].
Qed.

(** C5 (amended): in two dimensions, for every degree [k] with
    [2(k+1)(k+3) < 2^32] and every point, [compute] called with [values]
    of length [n_pols] and empty [grads] and [grad_grads] returns
    normally, leaves the lengths as they were, and in entry [i + d*n_sub]
    stores the value of the [i]-th scalar function at the rotated point
    into component [d] while every other component keeps what the caller
    had put there. *)
Theorem compute_values_dim2 k abf (unit_point : Point C) (s : buffers) :
  0 <= k -> 2 * (k + 1) * (k + 3) < 2 ^ 32 ->
  PolynomialsABF_new C 2 k = inr abf ->
  Z.of_nat (length (values s)) = n_pols abf ->
  grads s = [] -> grad_grads s = [] ->
  let n_sub := ap_n C (polynomial_space abf) in
  exists s',
    compute C 2 abf unit_point s = (inr tt, s') /\
    length (values s') = length (values s) /\
    grads s' = [] /\ grad_grads s' = [] /\
    forall d i, (d < 2)%nat -> (i < n_sub)%nat ->
      exists t t',
        values s !! (i + d * n_sub)%nat = Some t /\
        values s' !! (i + d * n_sub)%nat = Some t' /\
        t' d = ap_value C (pols (polynomial_space abf))
                 (rotated_point C 2 unit_point d) i /\
        forall c, c <> d -> t' c = t c.
Proof.
  intros Hk Hs Hnew Lv Eg Eh n_sub.
  destruct (constructed_dim2 k abf Hk Hs Hnew) as (Hn & Hsub & Hn2).
  destruct (compute_stores_values C 2 abf unit_point s Hn2)
    as (s' & R & (L1 & L2 & L3) & Q).
  - rewrite Hn, UINT_MOD_eq. lia.
  - now left.
  - right. now rewrite Eg.
  - right. now rewrite Eh.
  - exists s'. split; [exact R |]. split; [exact L1 |].
    rewrite Eg in L2. rewrite Eh in L3.
    split; [now destruct (grads s') |].
    split; [now destruct (grad_grads s') |].
    intros d i Hd Hi. apply Q; [exact Hd | exact Hi |].
    intros E. rewrite E in Lv. cbn in Lv. nia.
Qed.

(** In one and in three dimensions it is not: the stored count is smaller
    than the number of entries the loop of [compute] writes. *)
Lemma constructed_dim1 k abf :
  0 <= k -> k + 3 < 2 ^ 32 ->
  PolynomialsABF_new C 1 k = inr abf ->
  n_pols abf = k + 1 /\
  Z.of_nat (1 * ap_n C (polynomial_space abf)) = k + 3.
Proof.
  intros Hk Hs Hnew.
  assert (Hk2 : k + 2 < UINT_MOD) by (rewrite UINT_MOD_eq; lia).
  pose proof (constructed_n_sub 1 k abf Hk Hk2 Hnew) as Hsub.
  cbn in Hsub. split; [| lia].
  unfold PolynomialsABF_new in Hnew.
  destruct (compute_n_pols_mod k) as (H1 & _). rewrite H1 in Hnew.
  injection Hnew as <-. cbn. apply uint_small. rewrite UINT_MOD_eq. lia.
Qed.

Lemma constructed_dim3 k abf :
  0 <= k -> 3 * (k + 1) * (k + 1) * (k + 3) < 2 ^ 32 ->
  PolynomialsABF_new C 3 k = inr abf ->
  n_pols abf = 3 * (k + 1) * (k + 1) * (k + 2) /\
  Z.of_nat (3 * ap_n C (polynomial_space abf))
  = 3 * (k + 1) * (k + 1) * (k + 3).
Proof.
  intros Hk Hs Hnew.
  assert (Hk2 : k + 2 < UINT_MOD) by (rewrite UINT_MOD_eq; nia).
  pose proof (constructed_n_sub 3 k abf Hk Hk2 Hnew) as Hsub.
  cbn in Hsub. split; [| lia].
  unfold PolynomialsABF_new in Hnew.
  destruct (compute_n_pols_mod k) as (_ & _ & H3). rewrite H3 in Hnew.
  injection Hnew as <-. cbn. apply uint_small. rewrite UINT_MOD_eq. nia.
Qed.

(** For [dim = 1] and [k = 0] the constructor stores [n_pols = 1], and
    the scalar space it builds is the complete Lagrange-equidistant basis
    of degree 2, of three functions ([n_sub = 3]). *)
Theorem dim1_degree0_space :
  exists abf,
    PolynomialsABF_new C 1 0 = inr abf /\
    n_pols abf = 1 /\
    pols (polynomial_space abf) = [LagrangeEquidistant_basis C 2] /\
    ap_n C (polynomial_space abf) = 3%nat.
Proof.
  eexists. split; [reflexivity |]. split; [reflexivity |].
  split; [reflexivity |].
  unfold ap_n. cbn. destruct (bases 2 ltac:(lia)) as [E _].
  change (uadd 0 2) with 2. rewrite E. reflexivity.
Qed.

Lemma rotated_swap (a b : scalar C) :
  rotated_point C 2 [a; b] 1 = [b; a]
  /\ rotated_point C 2 [b; a] 0 = [b; a].
Proof. split; reflexivity. Qed.

(** C8: for [dim = 2] and [k = 1] and any coordinates [a], [b], the block
    of direction 1 computed at [(a,b)] is the block of direction 0
    computed at [(b,a)] with the vector component and every derivative
    index rotated by one: [values[i+n_sub][1]] is [values'[i][0]],
    [grads[i+n_sub][1][(d1+1)%2]] is [grads'[i][0][d1]] and
    [grad_grads[i+n_sub][1][(d1+1)%2][(d2+1)%2]] is
    [grad_grads'[i][0][d1][d2]]. *)
Theorem rotation_symmetry abf (a b : scalar C) (s1 s2 : buffers) :
  PolynomialsABF_new C 2 1 = inr abf ->
  Z.of_nat (length (values s1)) = n_pols abf ->
  Z.of_nat (length (grads s1)) = n_pols abf ->
  Z.of_nat (length (grad_grads s1)) = n_pols abf ->
  Z.of_nat (length (values s2)) = n_pols abf ->
  Z.of_nat (length (grads s2)) = n_pols abf ->
  Z.of_nat (length (grad_grads s2)) = n_pols abf ->
  let n_sub := ap_n C (polynomial_space abf) in
  exists s1' s2',
    compute C 2 abf [a; b] s1 = (inr tt, s1') /\
    compute C 2 abf [b; a] s2 = (inr tt, s2') /\
    n_sub = 8%nat /\
    forall i, (i < n_sub)%nat ->
      exists (v1 v2 : Tensor1 C) (g1 g2 : Tensor2 C) (h1 h2 : Tensor3 C),
        (values s1' !! (i + 1 * n_sub)%nat = Some v1 /\
         values s2' !! i = Some v2 /\
         grads s1' !! (i + 1 * n_sub)%nat = Some g1 /\
         grads s2' !! i = Some g2 /\
         grad_grads s1' !! (i + 1 * n_sub)%nat = Some h1 /\
         grad_grads s2' !! i = Some h2) /\
        v1 1%nat = v2 0%nat /\
        (forall d1, (d1 < 2)%nat ->
           g1 1%nat ((d1 + 1) mod 2)%nat = g2 0%nat d1) /\
        (forall d1 d2, (d1 < 2)%nat -> (d2 < 2)%nat ->
           h1 1%nat ((d1 + 1) mod 2)%nat ((d2 + 1) mod 2)%nat
           = h2 0%nat d1 d2).
Proof.
  intros Hnew V1 G1 H1 V2 G2 H2 n_sub.
  destruct (constructed_dim2 1 abf ltac:(lia) ltac:(lia) Hnew)
    as (Hn & Hsub & Hn2).
  fold n_sub in Hsub, Hn2.
  assert (Hw : Z.of_nat (2 * n_sub) < UINT_MOD) by (rewrite UINT_MOD_eq; lia).
  destruct (compute_spec C 2 abf [a; b] Hw s1 Hn2)
    as (s1' & R1 & _ & P1 & P2 & P3); try (fold n_sub; lia).
  destruct (compute_spec C 2 abf [b; a] Hw s2 Hn2)
    as (s2' & R2 & _ & Q1 & Q2 & Q3); try (fold n_sub; lia).
  exists s1', s2'. split; [exact R1 |]. split; [exact R2 |].
  split; [lia |].
  intros i Hi.
  destruct (block_index_entry 1 n_sub i Hi) as [Hq1 Hm1].
  destruct (block_index_entry 0 n_sub i Hi) as [Hq0 Hm0].
  replace (i + 0 * n_sub)%nat with i in Hq0, Hm0 by lia.
  destruct (lookup_lt_is_Some_2 (values s1) (i + 1 * n_sub)%nat ltac:(lia))
    as [a1 A1].
  destruct (lookup_lt_is_Some_2 (values s2) i ltac:(lia)) as [a2 A2].
  destruct (lookup_lt_is_Some_2 (grads s1) (i + 1 * n_sub)%nat ltac:(lia))
    as [b1 B1].
  destruct (lookup_lt_is_Some_2 (grads s2) i ltac:(lia)) as [b2 B2].
  destruct (lookup_lt_is_Some_2 (grad_grads s1) (i + 1 * n_sub)%nat
              ltac:(lia)) as [c1 C1].
  destruct (lookup_lt_is_Some_2 (grad_grads s2) i ltac:(lia)) as [c2 C2].
  do 6 eexists. split.
  { rewrite P1, A1, Q1, A2, P2, B1, Q2, B2, P3, C1, Q3, C2.
    repeat split; reflexivity. }
  unfold entry_value, entry_grad, entry_grad_grad. fold n_sub.
  rewrite Hq1, Hm1, Hq0, Hm0.
  destruct (rotated_swap a b) as [-> ->].
  split; [now rewrite !upd1_same |].
  split.
  - intros d1 Hd1. rewrite write_row_same by exact Hd1.
    rewrite <- (write_row_same C 2 0 _ b2 d1 Hd1) at 1.
    f_equal. rewrite Nat.add_0_r. now apply Nat.mod_small.
  - intros d1 d2 Hd1 Hd2. rewrite write_slice_same by assumption.
    rewrite <- (write_slice_same C 2 0 _ c2 d1 d2 Hd1 Hd2) at 1.
    f_equal; rewrite Nat.add_0_r; now apply Nat.mod_small.
Qed.

End Constructed.

(** ** Runs of the reference implementation *)

Section Runs.
Import RationalModel.
Import QArith.

#[local] Open Scope Z_scope.

Lemma lagrange_basis_length n : length (lagrange_basis n) = S (Z.to_nat n).
Proof. unfold lagrange_basis. apply length_map_seq. Qed.

Lemma rational_complete : complete_bases rational.
Proof.
  intros n Hn. cbn [LagrangeEquidistant_basis Legendre_basis rational].
  unfold lagrange_basis, legendre_basis. rewrite !length_map_seq. lia.
Qed.

Lemma constructed_new :
  PolynomialsABF_new rational 1 0 = inr (constructed 1 0) /\
  PolynomialsABF_new rational 2 0 = inr (constructed 2 0) /\
  PolynomialsABF_new rational 2 1 = inr (constructed 2 1) /\
  PolynomialsABF_new rational 3 0 = inr (constructed 3 0).
Proof. repeat split. Qed.

(** The degree-2 Lagrange family on the nodes 0, 1/2, 1 and the degree-0
    Legendre family, as the reference implementation has them. *)
Example lagrange_basis_2 :
  lagrange_basis 2
  = [[1; -3; 2]; [0; 4; -4]; [0; -1; 2]]%Q
  /\ legendre_basis 0 = [[1%Q]].
Proof. split; reflexivity. Qed.

(** A complete run: [dim = 2], [k = 0], all three outputs, at
    [(1/2, 1/3)]. *)
Example run_dim2_degree0 :
  let '(r, s') := compute rational 2 (constructed 2 0) [1 # 2; 1 # 3]%Q
                    (zero_buffers 6 6 0) in
  r = inr tt /\
  table1 2 (values s')
  = [[0; 0]; [1; 0]; [0; 0]; [0; 2 # 9]; [0; 8 # 9]; [0; -1 # 9]]%Q /\
  table2 2 (grads s')
  = [[[-1; 0]; [0; 0]]; [[0; 0]; [0; 0]]; [[1; 0]; [0; 0]];
     [[0; 0]; [0; -5 # 3]]; [[0; 0]; [0; 4 # 3]]; [[0; 0]; [0; 1 # 3]]]%Q.
Proof. vm_compute. repeat split. Qed.

(** *** C4 and C8 on concrete calls *)

Lemma compute_dimension_mismatch_witness :
  exists size,
    compute rational 2 (constructed 2 0) [1 # 2; 1 # 3]%Q (zero_buffers 6 5 6)
      = (inl (ExcDimensionMismatch size 6), zero_buffers 6 5 6) /\
    size = 5.
Proof.
  destruct (compute_dimension_mismatch rational 2 (constructed 2 0)
              [1 # 2; 1 # 3]%Q (zero_buffers 6 5 6))
    as (size & R & [[E [B _]] | [[E _] | [E [B _]]]]).
  - right; left. split; [discriminate | discriminate].
  - exfalso. apply B. reflexivity.
  - exists size. split; [exact R | exact E].
  - exfalso. apply B. reflexivity.
Defined.

Lemma rotation_symmetry_witness :
  exists s1' s2',
    compute rational 2 (constructed 2 1) [1 # 3; 1 # 5]%Q
      (zero_buffers 16 16 16) = (inr tt, s1') /\
    compute rational 2 (constructed 2 1) [1 # 5; 1 # 3]%Q
      (zero_buffers 16 16 16) = (inr tt, s2') /\
    forall i, (i < 8)%nat ->
      exists (v1 v2 : Tensor1 rational) (g1 g2 : Tensor2 rational)
             (h1 h2 : Tensor3 rational),
        (values s1' !! (i + 1 * 8)%nat = Some v1 /\
         values s2' !! i = Some v2 /\
         grads s1' !! (i + 1 * 8)%nat = Some g1 /\
         grads s2' !! i = Some g2 /\
         grad_grads s1' !! (i + 1 * 8)%nat = Some h1 /\
         grad_grads s2' !! i = Some h2) /\
        v1 1%nat = v2 0%nat /\
        (forall d1, (d1 < 2)%nat ->
           g1 1%nat ((d1 + 1) mod 2)%nat = g2 0%nat d1) /\
        (forall d1 d2, (d1 < 2)%nat -> (d2 < 2)%nat ->
           h1 1%nat ((d1 + 1) mod 2)%nat ((d2 + 1) mod 2)%nat
           = h2 0%nat d1 d2).
Proof.
  destruct (rotation_symmetry rational rational_complete (constructed 2 1)
              (1 # 3)%Q (1 # 5)%Q (zero_buffers 16 16 16)
              (zero_buffers 16 16 16))
    as (s1' & s2' & R1 & R2 & _ & H); try reflexivity.
  exists s1', s2'. split; [exact R1 |]. split; [exact R2 |]. exact H.
Defined.

(** *** C2: the stored count against [dim * n_sub] *)

(** C2 fails on the code: for [k = 0] the stored [n_pols] is
    [compute_n_pols(0)], that is 1 in one dimension and 6 in three, while
    the anisotropic space has [n_sub = 3] functions in both, so that
    [dim * n_sub] is 3 and 9; only in two dimensions do the two agree
    (6 and [2 * 3]).  Nothing compares them: the constructor returns
    normally in all three cases. *)
Theorem n_pols_against_n_sub :
  (exists abf, PolynomialsABF_new rational 1 0 = inr abf /\
     compute_n_pols 1 0 = inr (n_pols abf) /\ n_pols abf = 1 /\
     ap_n rational (polynomial_space abf) = 3%nat /\
     n_pols abf <> Z.of_nat (1 * ap_n rational (polynomial_space abf))) /\
  (exists abf, PolynomialsABF_new rational 2 0 = inr abf /\
     compute_n_pols 2 0 = inr (n_pols abf) /\ n_pols abf = 6 /\
     ap_n rational (polynomial_space abf) = 3%nat /\
     n_pols abf = Z.of_nat (2 * ap_n rational (polynomial_space abf))) /\
  (exists abf, PolynomialsABF_new rational 3 0 = inr abf /\
     compute_n_pols 3 0 = inr (n_pols abf) /\ n_pols abf = 6 /\
     ap_n rational (polynomial_space abf) = 3%nat /\
     n_pols abf <> Z.of_nat (3 * ap_n rational (polynomial_space abf))).
Proof.
  split; [| split]; eexists; (split; [reflexivity |]);
    (split; [reflexivity |]); (split; [reflexivity |]);
    (split; [reflexivity |]); cbn; solve [reflexivity | discriminate].
Qed.

(** *** C5 *)

(** C5 (as stated) fails.  In three dimensions with [k = 0], [values] of
    length [n_pols = 6] passes the size check and the third direction
    then writes [values[6]], beyond the end of the vector.  And in two
    dimensions, where the call returns, entry 0 at the point
    [(1/2, 1/3)] has no nonzero component at all: its scalar function
    vanishes at [x = 1/2]. *)
Lemma compute_values_fails :
  (n_pols (constructed 3 0) = 6 /\
   fst (compute rational 3 (constructed 3 0) [1 # 2; 1 # 3; 1 # 4]%Q
          (zero_buffers 6 0 0)) = inl UndefinedAccess) /\
  (let '(r, s') := compute rational 2 (constructed 2 0) [1 # 2; 1 # 3]%Q
                     (zero_buffers 6 0 0) in
   r = inr tt /\
   table1 2 (values s')
   = [[0; 0]; [1; 0]; [0; 0]; [0; 2 # 9]; [0; 8 # 9]; [0; -1 # 9]]%Q).
Proof. vm_compute. repeat split. Qed.

Lemma compute_values_dim2_witness :
  exists s',
    compute rational 2 (constructed 2 0) [1 # 2; 1 # 3]%Q (zero_buffers 6 0 0)
      = (inr tt, s') /\
    length (values s') = 6%nat /\ grads s' = [] /\ grad_grads s' = [] /\
    forall d i, (d < 2)%nat -> (i < 3)%nat ->
      exists t t' : Tensor1 rational,
        values (zero_buffers 6 0 0) !! (i + d * 3)%nat = Some t /\
        values s' !! (i + d * 3)%nat = Some t' /\
        t' d = ap_value rational (pols (polynomial_space (constructed 2 0)))
                 (rotated_point rational 2 [1 # 2; 1 # 3]%Q d) i /\
        forall c, c <> d -> t' c = t c.
Proof.
  apply (compute_values_dim2 rational rational_complete 0 (constructed 2 0)
           [1 # 2; 1 # 3]%Q (zero_buffers 6 0 0));
    solve [reflexivity | lia].
Defined.

(** *** C6 *)

(** C6 (as stated) fails for the two largest degrees: with
    [k = 4294967295] the degree [k+2] of direction 0 wraps around to 1,
    and the family built has 2 members, not [k + 3]. *)
Lemma constructor_degree_wraps :
  exists abf,
    PolynomialsABF_new rational 1 4294967295 = inr abf /\
    pols (polynomial_space abf) = [LagrangeEquidistant_basis rational 1] /\
    LagrangeEquidistant_basis rational 1
      <> LagrangeEquidistant_basis rational (4294967295 + 2).
Proof.
  eexists. split; [reflexivity |]. split; [reflexivity |].
  intros E. apply (f_equal length) in E.
  cbn [LagrangeEquidistant_basis rational] in E.
  rewrite !lagrange_basis_length in E. lia.
Qed.

Lemma constructor_families_witness :
  exists abf,
    PolynomialsABF_new rational 2 1 = inr abf /\
    my_degree abf = 1 /\
    compute_n_pols 2 1 = inr (n_pols abf) /\
    length (pols (polynomial_space abf)) = 2%nat /\
    pols (polynomial_space abf) !! 0%nat
      = Some (LagrangeEquidistant_basis rational ((1 + 2) mod 2 ^ 32)) /\
    (1 + 2 < 2 ^ 32 ->
     pols (polynomial_space abf) !! 0%nat
       = Some (LagrangeEquidistant_basis rational (1 + 2))) /\
    (forall d, (1 <= d < 2)%nat ->
       pols (polynomial_space abf) !! d
       = Some (if 1 =? 0 then Legendre_basis rational 0
               else LagrangeEquidistant_basis rational 1)).
Proof.
  apply (constructor_families rational 2 1); [lia |].
  rewrite UINT_MOD_eq. lia.
Defined.

(** *** C7 *)


End Runs.

(** * Further properties of the constructor and of [compute] *)

(** ** The outcomes of [compute] *)

Section Outcomes.
Context (C : Collaborators).

#[local] Abbreviation buffers := (buffers C).

Lemma bind_ok {A B} (m : M C A) (k : A -> M C B) s a s1 :
  m s = (inr a, s1) -> bind C m k s = k a s1.
Proof. intros H. unfold bind. now rewrite H. Qed.

Lemma bind_raised {A B} (m : M C A) (k : A -> M C B) s e s1 :
  m s = (inl e, s1) -> bind C m k s = (inl e, s1).
Proof. intros H. unfold bind. now rewrite H. Qed.

Lemma steady_ret (I : buffers -> Prop) : steady I (ret C tt).
Proof. intros s Hs. split; [exact Hs | now left]. Qed.

Lemma steady_raise (I : buffers -> Prop) : steady I (raise C UndefinedAccess).
Proof. intros s Hs. split; [exact Hs | now right]. Qed.

Lemma steady_bind (I : buffers -> Prop) (m k : M C unit) :
  steady I m -> steady I k -> steady I (bind C m (fun _ => k)).
Proof.
  intros Hm Hk s Hs. destruct (Hm s Hs) as [H1 H2]. unfold bind.
  destruct (m s) as [[e | []] s1]; cbn in *.
  - split; [exact H1 |]. destruct H2 as [H2 | H2]; [discriminate | now right].
  - exact (Hk s1 H1).
Qed.

(** A computation that first looks at the buffers. *)
Lemma steady_get (I : buffers -> Prop) (k : buffers -> M C unit) :
  (forall s0, steady I (k s0)) -> steady I (bind C (get C) k).
Proof. intros Hk s Hs. exact (Hk s s Hs). Qed.

Lemma steady_for_range (I : buffers -> Prop) (body : nat -> M C unit) count :
  forall lo, (forall i, steady I (body i)) ->
    steady I (for_range C lo count body).
Proof.
  induction count as [| n IH]; intros lo Hb; [apply steady_ret |].
  apply steady_bind; [apply Hb | now apply IH].
Qed.

(** Reading [v[i]] and going on with the element. *)
Lemma steady_at_index {A} (I : buffers -> Prop) (v : list A) i
    (k : A -> M C unit) :
  (forall a, steady I (k a)) -> steady I (bind C (at_index C v i) k).
Proof.
  intros Hk s Hs. unfold bind, at_index.
  destruct (v !! i) as [a |]; [exact (Hk a s Hs) |].
  split; [exact Hs | now right].
Qed.

Lemma steady_modify_at {T} (I : buffers -> Prop)
    (fget : buffers -> list T) (fset : list T -> buffers -> buffers) j f :
  (forall l s, I s -> length l = length (fget s) -> I (fset l s)) ->
  steady I (modify_at C fget fset j f).
Proof.
  intros Hset s Hs. unfold modify_at, bind, get, at_index, modify.
  destruct (fget s !! j) as [t |]; cbn.
  - split; [| now left]. apply Hset; [exact Hs | apply length_insert].
  - split; [exact Hs | now right].
Qed.

Section Shaped.
Variable abf : PolynomialsABF C.
Variable s0 : buffers.

Lemma shaped_set_values l s :
  shaped abf s0 s -> length l = length (values s) ->
  shaped abf s0 (set_values C l s).
Proof. unfold shaped. cbn. intros H E. rewrite E. exact H. Qed.

Lemma shaped_set_grads l s :
  shaped abf s0 s -> length l = length (grads s) ->
  shaped abf s0 (set_grads C l s).
Proof. unfold shaped. cbn. intros H E. rewrite E. exact H. Qed.

Lemma shaped_set_grad_grads l s :
  shaped abf s0 s -> length l = length (grad_grads s) ->
  shaped abf s0 (set_grad_grads C l s).
Proof. unfold shaped. cbn. intros H E. rewrite E. exact H. Qed.

Lemma shaped_resized : shaped abf s0 (resized abf s0).
Proof.
  unfold shaped, resized. cbn. rewrite !length_resize_vec. auto.
Qed.

(** With the scratch so sized, the anisotropic space accepts the call. *)
Lemma shaped_ap_compute p s :
  shaped abf s0 s ->
  exists s', ap_compute C (polynomial_space abf) p s = (inr tt, s')
             /\ shaped abf s0 s'.
Proof.
  intros Hs. pose proof Hs as (Ho & H1 & H2 & H3).
  rewrite ap_compute_eq.
  - eexists. split; [reflexivity |].
    unfold shaped. cbn. rewrite !length_map_seq. exact Hs.
  - rewrite H1. destruct (length (values s0) =? 0)%nat; auto.
  - rewrite H2. destruct (length (grads s0) =? 0)%nat; auto.
  - rewrite H3. destruct (length (grad_grads s0) =? 0)%nat; auto.
Qed.

Lemma steady_direction_body dim unit_point d :
  steady (shaped abf s0) (direction_body C dim abf unit_point d).
Proof.
  assert (Hrest : steady (shaped abf s0)
            (bind C (store_values C d (ap_n C (polynomial_space abf)))
               (fun _ => bind C
                  (store_grads C dim d (ap_n C (polynomial_space abf)))
                  (fun _ => store_grad_grads C dim d
                              (ap_n C (polynomial_space abf)))))).
  { apply steady_bind; [| apply steady_bind].
    - apply steady_get. intros s1. apply steady_for_range. intros i.
      apply steady_get. intros s2. apply steady_at_index. intros x.
      apply steady_modify_at. apply shaped_set_values.
    - apply steady_get. intros s1. apply steady_for_range. intros i.
      apply steady_for_range. intros d1.
      apply steady_get. intros s2. apply steady_at_index. intros g.
      apply steady_modify_at. apply shaped_set_grads.
    - apply steady_get. intros s1. apply steady_for_range. intros i.
      apply steady_for_range. intros d1. apply steady_for_range. intros d2.
      apply steady_get. intros s2. apply steady_at_index. intros h.
      apply steady_modify_at. apply shaped_set_grad_grads. }
  intros s Hs.
  destruct (shaped_ap_compute (rotated_point C dim unit_point d) s Hs)
    as (s1 & R & H1).
  unfold direction_body. cbv zeta. rewrite (bind_ok _ _ _ _ _ R).
  exact (Hrest s1 H1).
Qed.

End Shaped.

Lemma size_ok_empty_or_full (abf : PolynomialsABF C) len :
  size_ok abf len = true <-> empty_or_full abf len.
Proof.
  split; [| apply size_ok_true].
  unfold size_ok, empty_or_full.
  destruct (Z.eqb_spec (Z.of_nat len) (n_pols abf)); [now left |].
  destruct (Z.eqb_spec (Z.of_nat len) 0); [right; lia | discriminate].
Qed.

Lemma steady_loop dim abf unit_point s0 :
  steady (shaped abf s0)
    (for_range C 0 dim (direction_body C dim abf unit_point)).
Proof.
  apply steady_for_range. intros d. apply steady_direction_body.
Qed.

(** [compute] raises [ExcDimensionMismatch] exactly when one of the three
    output vectors is neither empty nor [n_pols] long, and then with
    [n_pols] as the expected size and all buffers untouched; it never
    raises [ExcNotImplemented]; and the anisotropic space never rejects the
    scratch vectors it is handed, so with correct lengths the call returns
    normally or runs past the end of a vector. *)
Theorem compute_outcomes dim abf (unit_point : Point C) (s : buffers) :
  let r := compute C dim abf unit_point s in
  let lengths_ok :=
    empty_or_full abf (length (values s)) /\
    empty_or_full abf (length (grads s)) /\
    empty_or_full abf (length (grad_grads s)) in
  (~ lengths_ok /\
   exists size, r = (inl (ExcDimensionMismatch size (n_pols abf)), s)) \/
  (lengths_ok /\ (fst r = inr tt \/ fst r = inl UndefinedAccess)).
Proof.
  intros r lengths_ok. subst r lengths_ok. rewrite compute_unfold.
  destruct (size_ok abf (length (values s))) eqn:Ev;
    [| left; split; [| eauto]; intros (H & _ & _);
       apply size_ok_empty_or_full in H; congruence].
  destruct (size_ok abf (length (grads s))) eqn:Eg;
    [| left; split; [| eauto]; intros (_ & H & _);
       apply size_ok_empty_or_full in H; congruence].
  destruct (size_ok abf (length (grad_grads s))) eqn:Eh;
    [| left; split; [| eauto]; intros (_ & _ & H);
       apply size_ok_empty_or_full in H; congruence].
  right. split; [now rewrite <- !size_ok_empty_or_full |].
  apply (steady_loop dim abf unit_point s (resized abf s)).
  apply shaped_resized.
Qed.

(** Whatever the outcome of [compute], no output vector changes its
    length; and once the size checks have passed, each scratch member is
    left with [n_sub] entries if its output vector is not empty and with
    none if it is: an output that is not asked for is not computed. *)
Theorem compute_keeps_lengths dim abf (unit_point : Point C) (s : buffers) :
  let s' := snd (compute C dim abf unit_point s) in
  let n_sub := ap_n C (polynomial_space abf) in
  (length (values s') = length (values s) /\
   length (grads s') = length (grads s) /\
   length (grad_grads s') = length (grad_grads s)) /\
  (empty_or_full abf (length (values s)) ->
   empty_or_full abf (length (grads s)) ->
   empty_or_full abf (length (grad_grads s)) ->
   length (p_values s') = (if (length (values s) =? 0)%nat then 0 else n_sub)%nat /\
   length (p_grads s') = (if (length (grads s) =? 0)%nat then 0 else n_sub)%nat /\
   length (p_grad_grads s')
   = (if (length (grad_grads s) =? 0)%nat then 0 else n_sub)%nat).
Proof.
  intros s' n_sub. subst s'. rewrite compute_unfold.
  pose proof (steady_loop dim abf unit_point s (resized abf s)
                (shaped_resized abf s)) as [[Ho Hp] _].
  split.
  - destruct (size_ok abf (length (values s))); [| auto].
    destruct (size_ok abf (length (grads s))); [| auto].
    destruct (size_ok abf (length (grad_grads s))); [| auto].
    exact Ho.
  - intros Hv Hg Hh. apply size_ok_empty_or_full in Hv, Hg, Hh.
    rewrite Hv, Hg, Hh. exact Hp.
Qed.

(** One direction when nothing is asked for. *)
Lemma direction_body_idle dim abf unit_point d (s : buffers) :
  p_values s = [] -> p_grads s = [] -> p_grad_grads s = [] ->
  direction_body C dim abf unit_point d s = (inr tt, s).
Proof.
  destruct s as [v g h pv pg ph]. cbn. intros -> -> ->.
  unfold direction_body. cbv zeta.
  rewrite (bind_ok _ _ _ tt
             (Build_buffers C v g h [] [] [])).
  - reflexivity.
  - rewrite ap_compute_eq by (cbn; auto). reflexivity.
Qed.

Lemma loop_idle dim abf unit_point (s : buffers) count : forall lo,
  p_values s = [] -> p_grads s = [] -> p_grad_grads s = [] ->
  for_range C lo count (direction_body C dim abf unit_point) s = (inr tt, s).
Proof.
  induction count as [| n IH]; intros lo H1 H2 H3; [reflexivity |].
  rewrite for_range_succ, direction_body_idle by assumption.
  now apply IH.
Qed.

(** A call with three empty output vectors is accepted by every object,
    in every dimension: it returns normally, writes nothing and leaves
    the three scratch members empty. *)
Theorem compute_nothing_requested dim abf (unit_point : Point C)
    (s : buffers) :
  values s = [] -> grads s = [] -> grad_grads s = [] ->
  compute C dim abf unit_point s = (inr tt, set_scratch C [] [] [] s).
Proof.
  intros Ev Eg Eh. rewrite compute_unfold, Ev, Eg, Eh.
  assert (E0 : size_ok abf 0 = true) by (apply size_ok_true; now right).
  cbn [length]. rewrite E0.
  assert (Er : resized abf s = set_scratch C [] [] [] s).
  { unfold resized. rewrite Ev, Eg, Eh. reflexivity. }
  rewrite Er. now apply loop_idle.
Qed.

(** *** What a normal return tells about the lengths *)

Lemma bind_returned (m k : M C unit) s s' :
  bind C m (fun _ => k) s = (inr tt, s') ->
  exists s1, m s = (inr tt, s1) /\ k s1 = (inr tt, s').
Proof.
  unfold bind. destruct (m s) as [[e | []] s1]; [discriminate |].
  intros H. eauto.
Qed.

(** A loop that returns normally has run every iteration normally. *)
Lemma for_range_returned (I : buffers -> Prop) (Q : nat -> Prop)
    (body : nat -> M C unit) count : forall lo s s',
  (forall i s s', (lo <= i < lo + count)%nat -> I s ->
     body i s = (inr tt, s') -> I s' /\ Q i) ->
  I s -> for_range C lo count body s = (inr tt, s') ->
  I s' /\ forall i, (lo <= i < lo + count)%nat -> Q i.
Proof.
  induction count as [| n IH]; intros lo s s' Hb Hs R.
  - injection R as <-. split; [exact Hs | intros i Hi; lia].
  - apply bind_returned in R as (s1 & R1 & R2).
    destruct (Hb lo s s1 ltac:(lia) Hs R1) as [H1 Q1].
    destruct (IH (S lo) s1 s') as [H' Q']; [| exact H1 | exact R2 |].
    + intros i t t' Hi. apply Hb. lia.
    + split; [exact H' |]. intros i Hi.
      destruct (decide (i = lo)) as [-> | Hne]; [exact Q1 | apply Q'; lia].
Qed.

(** A write through [v[j]] that returns normally found [j] within
    [v]. *)
Lemma write_returned {A T} (I : buffers -> Prop)
    (fget : buffers -> list T) (fset : list T -> buffers -> buffers)
    (read : buffers -> list A) i j (F : A -> T -> T) s s' :
  (forall l s, I s -> length l = length (fget s) -> I (fset l s)) ->
  I s ->
  bind C (get C) (fun s0 => bind C (at_index C (read s0) i)
    (fun x => modify_at C fget fset j (F x))) s = (inr tt, s') ->
  I s' /\ (j < length (fget s))%nat.
Proof.
  intros Hset Hs. unfold modify_at.
  unfold bind, get, at_index, modify, ret, raise. cbv beta iota.
  destruct (read s !! i) as [x |]; cbv beta iota; [| discriminate].
  destruct (fget s !! j) as [t |] eqn:E; cbv beta iota; [| discriminate].
  intros R. injection R as <-. split.
  - apply Hset; [exact Hs | apply length_insert].
  - eapply lookup_lt_Some; eauto.
Qed.

Section Room.
Variable dim : nat.
Variable abf : PolynomialsABF C.
Variable unit_point : Point C.
Variable s0 : buffers.

Let n_sub := ap_n C (polynomial_space abf).

Lemma store_values_returned d s s' :
  shaped abf s0 s -> store_values C d n_sub s = (inr tt, s') ->
  shaped abf s0 s' /\ in_range abf d (length (values s0)).
Proof.
  intros Hs R. pose proof Hs as ((Lv & _ & _) & Pv & _ & _).
  unfold store_values in R.
  change (for_range C 0 (length (p_values s)) (fun i =>
            bind C (get C) (fun s1 => bind C (at_index C (p_values s1) i)
              (fun x => modify_value C (block_index i d n_sub)
                          (fun t => upd1 C t d x)))) s = (inr tt, s')) in R.
  apply (for_range_returned (shaped abf s0)
           (fun i => (block_index i d n_sub < length (values s0))%nat))
    in R as [H' Q]; [| | exact Hs].
  - split; [exact H' |]. intros Hne i Hi. apply Q.
    rewrite Pv. destruct (Nat.eqb_spec (length (values s0)) 0); lia.
  - intros i t t' _ Ht Rt.
    pose proof Ht as ((Lt & _ & _) & _). rewrite <- Lt.
    apply (write_returned (shaped abf s0) values (set_values C) p_values
             i _ (fun x t => upd1 C t d x) t t');
      [apply shaped_set_values | exact Ht | exact Rt].
Qed.

Lemma store_grads_returned d s s' :
  (0 < dim)%nat ->
  shaped abf s0 s -> store_grads C dim d n_sub s = (inr tt, s') ->
  shaped abf s0 s' /\ in_range abf d (length (grads s0)).
Proof.
  intros Hdim Hs R. pose proof Hs as ((_ & Lg & _) & _ & Pg & _).
  unfold store_grads in R.
  change (for_range C 0 (length (p_grads s)) (fun i =>
            for_range C 0 dim (fun d1 =>
              bind C (get C) (fun s1 => bind C (at_index C (p_grads s1) i)
                (fun g => modify_grad C (block_index i d n_sub)
                            (fun t => upd2 C t d ((d1 + d) mod dim) (g d1))))))
            s = (inr tt, s')) in R.
  apply (for_range_returned (shaped abf s0)
           (fun i => (block_index i d n_sub < length (grads s0))%nat))
    in R as [H' Q]; [| | exact Hs].
  - split; [exact H' |]. intros Hne i Hi. apply Q.
    rewrite Pg. destruct (Nat.eqb_spec (length (grads s0)) 0); lia.
  - intros i t t' _ Ht Rt.
    apply (for_range_returned (shaped abf s0)
             (fun _ => (block_index i d n_sub < length (grads s0))%nat))
      in Rt as [H' Q]; [| | exact Ht].
    + split; [exact H' | apply (Q 0%nat); lia].
    + intros d1 u u' _ Hu Ru.
      pose proof Hu as ((_ & Lu & _) & _). rewrite <- Lu.
      apply (write_returned (shaped abf s0) grads (set_grads C) p_grads
               i _ (fun g t => upd2 C t d ((d1 + d) mod dim) (g d1)) u u');
        [apply shaped_set_grads | exact Hu | exact Ru].
Qed.

Lemma store_grad_grads_returned d s s' :
  (0 < dim)%nat ->
  shaped abf s0 s -> store_grad_grads C dim d n_sub s = (inr tt, s') ->
  shaped abf s0 s' /\ in_range abf d (length (grad_grads s0)).
Proof.
  intros Hdim Hs R. pose proof Hs as ((_ & _ & Lh) & _ & _ & Ph).
  unfold store_grad_grads in R.
  change (for_range C 0 (length (p_grad_grads s)) (fun i =>
            for_range C 0 dim (fun d1 => for_range C 0 dim (fun d2 =>
              bind C (get C) (fun s1 =>
                bind C (at_index C (p_grad_grads s1) i)
                  (fun h => modify_grad_grad C (block_index i d n_sub)
                     (fun t => upd3 C t d ((d1 + d) mod dim)
                                 ((d2 + d) mod dim) (h d1 d2)))))))
            s = (inr tt, s')) in R.
  apply (for_range_returned (shaped abf s0)
           (fun i => (block_index i d n_sub < length (grad_grads s0))%nat))
    in R as [H' Q]; [| | exact Hs].
  - split; [exact H' |]. intros Hne i Hi. apply Q.
    rewrite Ph. destruct (Nat.eqb_spec (length (grad_grads s0)) 0); lia.
  - intros i t t' _ Ht Rt.
    apply (for_range_returned (shaped abf s0)
             (fun _ => (block_index i d n_sub < length (grad_grads s0))%nat))
      in Rt as [H' Q]; [| | exact Ht].
    + split; [exact H' | apply (Q 0%nat); lia].
    + intros d1 u u' _ Hu Ru.
      apply (for_range_returned (shaped abf s0)
               (fun _ => (block_index i d n_sub < length (grad_grads s0))%nat))
        in Ru as [H' Q]; [| | exact Hu].
      * split; [exact H' | apply (Q 0%nat); lia].
      * intros d2 w w' _ Hw Rw.
        pose proof Hw as ((_ & _ & Lw) & _). rewrite <- Lw.
        apply (write_returned (shaped abf s0) grad_grads (set_grad_grads C)
                 p_grad_grads i _
                 (fun h t => upd3 C t d ((d1 + d) mod dim) ((d2 + d) mod dim)
                               (h d1 d2)) w w');
          [apply shaped_set_grad_grads | exact Hw | exact Rw].
Qed.

Lemma direction_body_returned d s s' :
  (0 < dim)%nat ->
  shaped abf s0 s ->
  direction_body C dim abf unit_point d s = (inr tt, s') ->
  shaped abf s0 s' /\
  (in_range abf d (length (values s0)) /\ in_range abf d (length (grads s0))
   /\ in_range abf d (length (grad_grads s0))).
Proof.
  intros Hdim Hs R. unfold direction_body in R. cbv zeta in R. fold n_sub in R.
  apply bind_returned in R as (s1 & R1 & R).
  destruct (shaped_ap_compute abf s0 (rotated_point C dim unit_point d) s Hs)
    as (s1' & E & H1).
  rewrite E in R1. injection R1 as <-.
  apply bind_returned in R as (s2 & R2 & R).
  apply (store_values_returned d) in R2 as [H2 Q2]; [| exact H1].
  apply bind_returned in R as (s3 & R3 & R).
  apply (store_grads_returned d) in R3 as [H3 Q3]; [| exact Hdim | exact H2].
  apply (store_grad_grads_returned d) in R as [H4 Q4];
    [| exact Hdim | exact H3].
  auto.
Qed.

End Room.

Lemma compute_returned_room dim abf (unit_point : Point C) (s s' : buffers) :
  let n_sub := ap_n C (polynomial_space abf) in
  (Z.of_nat (dim * n_sub) < UINT_MOD)%Z ->
  compute C dim abf unit_point s = (inr tt, s') ->
  (values s <> [] ->
   (dim * n_sub <= length (values s))%nat
   /\ Z.of_nat (length (values s)) = n_pols abf) /\
  (grads s <> [] ->
   (dim * n_sub <= length (grads s))%nat
   /\ Z.of_nat (length (grads s)) = n_pols abf) /\
  (grad_grads s <> [] ->
   (dim * n_sub <= length (grad_grads s))%nat
   /\ Z.of_nat (length (grad_grads s)) = n_pols abf).
Proof.
  intros n_sub Hw R. rewrite compute_unfold in R.
  destruct (size_ok abf (length (values s))) eqn:Lv; [| discriminate].
  destruct (size_ok abf (length (grads s))) eqn:Lg; [| discriminate].
  destruct (size_ok abf (length (grad_grads s))) eqn:Lh; [| discriminate].
  apply size_ok_empty_or_full in Lv, Lg, Lh.
  assert (Hroom : forall len,
            (forall d, (d < dim)%nat -> in_range abf d len) ->
            len <> 0%nat -> (dim * n_sub <= len)%nat).
  { intros len Hin Hne.
    destruct dim as [| n]; [lia |].
    destruct (Nat.eq_dec n_sub 0%nat) as [E0 | Hn]; [rewrite E0; lia |].
    specialize (Hin n ltac:(lia) Hne (n_sub - 1)%nat). fold n_sub in Hin.
    rewrite block_index_small in Hin by (fold n_sub in Hw |- *; nia).
    specialize (Hin ltac:(lia)). nia. }
  destruct (Nat.eq_dec dim 0%nat) as [-> | Hdim].
  { cbn. unfold empty_or_full in *.
    repeat split; try lia;
      match goal with |- _ = n_pols abf =>
        match goal with H : ?l <> [] |- _ =>
          destruct l; [congruence | cbn in *; lia] end end. }
  apply (for_range_returned (shaped abf s)
           (fun d => in_range abf d (length (values s))
                     /\ in_range abf d (length (grads s))
                     /\ in_range abf d (length (grad_grads s))))
    in R as [_ Q]; [| | apply shaped_resized].
  - assert (Hnil : forall {A} (l : list A), l <> [] -> length l <> 0%nat)
      by (intros A l; destruct l; [congruence | discriminate]).
    unfold empty_or_full in *.
    repeat split;
      try (apply Hroom; [intros d Hd; apply (Q d); lia | now apply Hnil]);
      match goal with H : ?l <> [] |- _ =>
        apply Hnil in H; lia end.
  - intros d t t' _ Ht Rt.
    apply (direction_body_returned dim abf unit_point s d t t');
      [lia | exact Ht | exact Rt].
Qed.

(** With correct lengths the call returns normally or runs past the end
    of a vector; it raises nothing else. *)
Lemma compute_checked dim abf (unit_point : Point C) (s : buffers) :
  empty_or_full abf (length (values s)) ->
  empty_or_full abf (length (grads s)) ->
  empty_or_full abf (length (grad_grads s)) ->
  fst (compute C dim abf unit_point s) = inr tt
  \/ fst (compute C dim abf unit_point s) = inl UndefinedAccess.
Proof.
  intros Lv Lg Lh. rewrite compute_unfold.
  rewrite !(proj2 (size_ok_empty_or_full _ _)) by assumption.
  apply (steady_loop dim abf unit_point s (resized abf s)).
  apply shaped_resized.
Qed.

(** With correct lengths, an output asked for and [n_pols < dim * n_sub]
    the loop indexes past the end. *)
Lemma compute_short dim abf (unit_point : Point C) (s : buffers) :
  (Z.of_nat (dim * ap_n C (polynomial_space abf)) < UINT_MOD)%Z ->
  empty_or_full abf (length (values s)) ->
  empty_or_full abf (length (grads s)) ->
  empty_or_full abf (length (grad_grads s)) ->
  values s <> [] \/ grads s <> [] \/ grad_grads s <> [] ->
  (n_pols abf < Z.of_nat (dim * ap_n C (polynomial_space abf)))%Z ->
  fst (compute C dim abf unit_point s) = inl UndefinedAccess.
Proof.
  intros Hw Lv Lg Lh Hne Hsmall.
  destruct (compute_checked dim abf unit_point s Lv Lg Lh) as [Hok | Hu];
    [| exact Hu].
  exfalso.
  destruct (compute C dim abf unit_point s) as [r s'] eqn:R.
  cbn in Hok. subst r.
  destruct (compute_returned_room dim abf unit_point s s' Hw R)
    as (H1 & H2 & H3).
  destruct Hne as [Hne | [Hne | Hne]];
    [destruct (H1 Hne) | destruct (H2 Hne) | destruct (H3 Hne)]; lia.
Qed.

(** [compute] returns normally only if every non-empty output vector has
    room for all the [dim * n_sub] entries the loop writes, that is only if
    [dim * n_sub <= n_pols], these vectors having [n_pols] entries.  With a
    non-empty vector of [n_pols < dim * n_sub] entries the size checks pass
    and the loop then indexes the vector past its end. *)
Theorem compute_needs_room dim abf (unit_point : Point C) (s : buffers) :
  let n_sub := ap_n C (polynomial_space abf) in
  (Z.of_nat (dim * n_sub) < UINT_MOD)%Z ->
  (forall s', compute C dim abf unit_point s = (inr tt, s') ->
     (values s <> [] -> (dim * n_sub <= length (values s))%nat) /\
     (grads s <> [] -> (dim * n_sub <= length (grads s))%nat) /\
     (grad_grads s <> [] -> (dim * n_sub <= length (grad_grads s))%nat)) /\
  (empty_or_full abf (length (values s)) ->
   empty_or_full abf (length (grads s)) ->
   empty_or_full abf (length (grad_grads s)) ->
   values s <> [] \/ grads s <> [] \/ grad_grads s <> [] ->
   (n_pols abf < Z.of_nat (dim * n_sub))%Z ->
   fst (compute C dim abf unit_point s) = inl UndefinedAccess).
Proof.
  intros n_sub Hw. split.
  - intros s' R.
    destruct (compute_returned_room dim abf unit_point s s' Hw R)
      as (H1 & H2 & H3).
    repeat split; intros Hne; [apply H1 | apply H2 | apply H3]; exact Hne.
  - now apply compute_short.
Qed.

(** When several output vectors have a wrong length, the exception
    reports the first of them in the order [values], [grads],
    [grad_grads]. *)
Theorem mismatch_reports_first dim abf (unit_point : Point C) (s : buffers) :
  let report (len : nat) :=
    compute C dim abf unit_point s
    = (inl (ExcDimensionMismatch (Z.of_nat len) (n_pols abf)), s) in
  (~ empty_or_full abf (length (values s)) -> report (length (values s))) /\
  (empty_or_full abf (length (values s)) ->
   ~ empty_or_full abf (length (grads s)) -> report (length (grads s))) /\
  (empty_or_full abf (length (values s)) ->
   empty_or_full abf (length (grads s)) ->
   ~ empty_or_full abf (length (grad_grads s)) ->
   report (length (grad_grads s))).
Proof.
  intros report. subst report. cbv beta. rewrite compute_unfold.
  assert (Hb : forall len, ~ empty_or_full abf len -> size_ok abf len = false).
  { intros len H. destruct (size_ok abf len) eqn:E; [| reflexivity].
    apply size_ok_empty_or_full in E. contradiction. }
  split; [| split].
  - intros H. now rewrite (Hb _ H).
  - intros H1 H2. now rewrite (proj2 (size_ok_empty_or_full _ _) H1), (Hb _ H2).
  - intros H1 H2 H3.
    now rewrite (proj2 (size_ok_empty_or_full _ _) H1),
      (proj2 (size_ok_empty_or_full _ _) H2), (Hb _ H3).
Qed.

(** *** The scratch members after a call *)

Lemma for_range_last (body : nat -> M C unit) count : forall lo s,
  for_range C lo (S count) body s
  = bind C (for_range C lo count body) (fun _ => body (lo + count)%nat) s.
Proof.
  induction count as [| n IH]; intros lo s.
  - cbn [for_range]. unfold bind, ret. rewrite Nat.add_0_r.
    now destruct (body lo s) as [[e | []] s1].
  - unfold bind. rewrite !for_range_succ.
    destruct (body lo s) as [[e | []] s1]; [reflexivity |].
    rewrite IH. unfold bind. replace (S lo + n)%nat with (lo + S n)%nat by lia.
    reflexivity.
Qed.

(** The three scatter loops write the output vectors only. *)
Lemma stores_keep (I : buffers -> Prop) dim d n_sub s s' :
  (forall l s, I s -> I (set_values C l s)) ->
  (forall l s, I s -> I (set_grads C l s)) ->
  (forall l s, I s -> I (set_grad_grads C l s)) ->
  I s ->
  bind C (store_values C d n_sub)
    (fun _ => bind C (store_grads C dim d n_sub)
       (fun _ => store_grad_grads C dim d n_sub)) s = (inr tt, s') ->
  I s'.
Proof.
  intros Sv Sg Sh Hs R.
  apply bind_returned in R as (s2 & R2 & R).
  apply bind_returned in R as (s3 & R3 & R4).
  assert (H2 : I s2).
  { unfold store_values in R2.
    apply (for_range_returned I (fun _ => True)) in R2 as [H _];
      [exact H | | exact Hs].
    intros i t t' _ Ht Rt. split; [| exact Logic.I].
    apply (write_returned I values (set_values C) p_values i _
             (fun x t => upd1 C t d x) t t') in Rt as [H _]; auto. }
  assert (H3 : I s3).
  { unfold store_grads in R3.
    apply (for_range_returned I (fun _ => True)) in R3 as [H _];
      [exact H | | exact H2].
    intros i t t' _ Ht Rt. split; [| exact Logic.I].
    apply (for_range_returned I (fun _ => True)) in Rt as [H _];
      [exact H | | exact Ht].
    intros d1 u u' _ Hu Ru. split; [| exact Logic.I].
    apply (write_returned I grads (set_grads C) p_grads i _
             (fun g t => upd2 C t d ((d1 + d) mod dim) (g d1)) u u')
      in Ru as [H _]; auto. }
  unfold store_grad_grads in R4.
  apply (for_range_returned I (fun _ => True)) in R4 as [H _];
    [exact H | | exact H3].
  intros i t t' _ Ht Rt. split; [| exact Logic.I].
  apply (for_range_returned I (fun _ => True)) in Rt as [H _];
    [exact H | | exact Ht].
  intros d1 u u' _ Hu Ru. split; [| exact Logic.I].
  apply (for_range_returned I (fun _ => True)) in Ru as [H _];
    [exact H | | exact Hu].
  intros d2 w w' _ Hw Rw. split; [| exact Logic.I].
  apply (write_returned I grad_grads (set_grad_grads C) p_grad_grads i _
           (fun h t => upd3 C t d ((d1 + d) mod dim) ((d2 + d) mod dim)
                         (h d1 d2)) w w') in Rw as [H _]; auto.
Qed.

(** After a call that has returned normally, in a dimension [dim >= 1],
    the scratch members hold the values, gradients and Hessians of the
    scalar functions at the point rotated by [dim - 1], the last direction
    (for the outputs that were asked for, and nothing for the others):
    this is the state the object carries into its next call. *)
Theorem scratch_after_call dim abf (unit_point : Point C) (s s' : buffers) :
  let n_sub := ap_n C (polynomial_space abf) in
  let fams := pols (polynomial_space abf) in
  let p := rotated_point C dim unit_point (dim - 1) in
  let asked (len : nat) := if (len =? 0)%nat then 0%nat else n_sub in
  (0 < dim)%nat ->
  compute C dim abf unit_point s = (inr tt, s') ->
  p_values s' = map (ap_value C fams p) (seq 0 (asked (length (values s)))) /\
  p_grads s' = map (ap_grad C fams p) (seq 0 (asked (length (grads s)))) /\
  p_grad_grads s'
  = map (ap_grad_grad C fams p) (seq 0 (asked (length (grad_grads s)))).
Proof.
  intros n_sub fams p asked Hdim R. rewrite compute_unfold in R.
  destruct (size_ok abf (length (values s))); [| discriminate].
  destruct (size_ok abf (length (grads s))); [| discriminate].
  destruct (size_ok abf (length (grad_grads s))); [| discriminate].
  destruct dim as [| n]; [lia |].
  rewrite for_range_last in R.
  apply bind_returned in R as (s1 & R1 & R2).
  assert (H1 : shaped abf s s1).
  { pose proof (steady_for_range (shaped abf s)
                  (direction_body C (S n) abf unit_point) n 0
                  (steady_direction_body abf s (S n) unit_point)
                  (resized abf s) (shaped_resized abf s)) as [H _].
    now rewrite R1 in H. }
  cbn [Nat.add] in R2. unfold direction_body in R2. cbv zeta in R2.
  apply bind_returned in R2 as (s2 & R2 & R3).
  pose proof H1 as (_ & P1 & P2 & P3).
  rewrite ap_compute_eq in R2.
  - injection R2 as <-.
    apply (stores_keep
             (fun t => p_values t = map (ap_value C fams p)
                                      (seq 0 (asked (length (values s)))) /\
                       p_grads t = map (ap_grad C fams p)
                                     (seq 0 (asked (length (grads s)))) /\
                       p_grad_grads t
                       = map (ap_grad_grad C fams p)
                           (seq 0 (asked (length (grad_grads s))))))
      in R3; [exact R3 | auto | auto | auto |].
    cbn [p_values p_grads p_grad_grads set_scratch].
    subst p asked fams n_sub. cbv beta.
    replace (S n - 1)%nat with n by lia.
    now rewrite P1, P2, P3.
  - rewrite P1. destruct (length (values s) =? 0)%nat; auto.
  - rewrite P2. destruct (length (grads s) =? 0)%nat; auto.
  - rewrite P3. destruct (length (grad_grads s) =? 0)%nat; auto.
Qed.

End Outcomes.

(** ** Construction, rotation and slots *)

Section Slots.
Context (C : Collaborators).

#[local] Open Scope nat_scope.

(** The constructor returns an object exactly in the dimensions 1, 2 and
    3, whatever the degree; the object then records the degree and holds
    one family per direction.  In any other dimension it raises
    [ExcNotImplemented]. *)
Theorem constructor_supported dim (k : Z) :
  ((dim = 1 \/ dim = 2 \/ dim = 3) ->
   exists abf, PolynomialsABF_new C dim k = inr abf /\
     my_degree abf = k /\ length (pols (polynomial_space abf)) = dim) /\
  (~ (dim = 1 \/ dim = 2 \/ dim = 3) ->
   PolynomialsABF_new C dim k = inl ExcNotImplemented).
Proof.
  split.
  - intros Hd. unfold PolynomialsABF_new.
    assert (Hn : exists n, compute_n_pols dim k = inr n).
    { destruct Hd as [-> | [-> | ->]]; cbn; eauto. }
    destruct Hn as [n ->]. eexists. split; [reflexivity |].
    split; [reflexivity |]. cbn [polynomial_space pols].
    rewrite constructor_pols_eq by lia. cbn. rewrite length_replicate. lia.
  - intros Hd. unfold PolynomialsABF_new, compute_n_pols.
    destruct (Nat.eqb_spec dim 1); [tauto |].
    destruct (Nat.eqb_spec dim 2); [tauto |].
    destruct (Nat.eqb_spec dim 3); [tauto | reflexivity].
Qed.

Lemma length_rotated_point dim (unit_point : Point C) d :
  length (rotated_point C dim unit_point d) = dim.
Proof.
  unfold rotated_point.
  assert (H : forall n (f : nat -> scalar C) (l : list (scalar C)),
            length (foldl (fun p c => <[c := f c]> p) l (seq 0 n)) = length l).
  { induction n as [| n IH]; intros f l; [reflexivity |].
    now rewrite foldl_seq_succ, length_insert. }
  rewrite (H dim (fun c => nth ((c + d) mod dim) unit_point (scalar_zero C))).
  apply length_replicate.
Qed.

(** The point handed to the anisotropic space is the given point rotated
    to the left by [d] places: the same coordinates in cyclically shifted
    order, and the given point itself when [d] is a multiple of [dim]. *)
Theorem rotated_point_rotate dim (unit_point : Point C) d :
  length unit_point = dim ->
  rotated_point C dim unit_point d = rotate d unit_point /\
  rotated_point C dim unit_point d ≡ₚ unit_point /\
  (d mod dim = 0 -> rotated_point C dim unit_point d = unit_point).
Proof.
  intros Hlen.
  assert (E : rotated_point C dim unit_point d = rotate d unit_point).
  { apply list_eq. intros c. unfold rotate. rewrite Hlen.
    destruct (decide (c < dim)) as [Hc | Hc].
    - rewrite rotated_point_lookup by exact Hc.
      pose proof (Nat.mod_upper_bound d dim ltac:(lia)) as Hr.
      rewrite <- Nat.Div0.add_mod_idemp_r.
      set (r := d mod dim) in *.
      destruct (decide (c < dim - r)) as [Hl | Hl].
      + rewrite lookup_app_l by (rewrite length_drop; lia).
        rewrite lookup_drop, Nat.mod_small by lia.
        replace (r + c) with (c + r) by lia.
        destruct (nth_lookup_or_length unit_point (c + r) (scalar_zero C))
          as [-> | ?]; [reflexivity | lia].
      + rewrite lookup_app_r by (rewrite length_drop; lia).
        rewrite length_drop, lookup_take.
        case_decide; [| lia].
        replace ((c + r) mod dim) with (c - (length unit_point - r)).
        * destruct (nth_lookup_or_length unit_point
                      (c - (length unit_point - r)) (scalar_zero C))
            as [-> | ?]; [reflexivity | lia].
        * apply (Nat.mod_unique (c + r) dim 1); lia.
    - rewrite !lookup_ge_None_2; [reflexivity | |].
      + rewrite length_app, length_drop, length_take. lia.
      + rewrite length_rotated_point. lia. }
  split; [exact E |]. split.
  - rewrite E. unfold rotate.
    rewrite Permutation_app_comm. now rewrite take_drop.
  - intros H0. rewrite E. unfold rotate. rewrite Hlen, H0.
    cbn. apply app_nil_r.
Qed.

(** As long as [dim * n_sub] fits an [unsigned int], [i + d*n_sub] sends
    the pairs of a function [i < n_sub] and a direction [d < dim] one to
    one onto the slots below [dim * n_sub]: no slot is written for two
    pairs and none is left out. *)
Theorem block_index_bijective dim n_sub :
  (Z.of_nat (dim * n_sub) < UINT_MOD)%Z ->
  (forall i d, i < n_sub -> d < dim ->
     block_index i d n_sub < dim * n_sub /\
     block_index i d n_sub / n_sub = d /\
     block_index i d n_sub mod n_sub = i) /\
  (forall j, j < dim * n_sub ->
     j mod n_sub < n_sub /\ j / n_sub < dim /\
     block_index (j mod n_sub) (j / n_sub) n_sub = j).
Proof.
  intros Hw. split.
  - intros i d Hi Hd.
    rewrite block_index_small by nia.
    destruct (block_div_mod d n_sub (d * n_sub + i)) as [Hq Hr]; [lia |].
    split; [nia |]. split; [exact Hq | rewrite Hr; lia].
  - intros j Hj.
    assert (Hn : n_sub <> 0) by nia.
    pose proof (Nat.mod_upper_bound j n_sub Hn) as Hm.
    pose proof (Nat.div_mod_eq j n_sub) as Hdm.
    assert (Hq : j / n_sub < dim).
    { apply Nat.Div0.div_lt_upper_bound. lia. }
    split; [exact Hm |]. split; [exact Hq |].
    rewrite block_index_small by nia. lia.
Qed.

End Slots.

(** ** Overwriting: what a call leaves of earlier contents *)

Section Overwrite.
Context (C : Collaborators).

#[local] Abbreviation buffers := (buffers C).
#[local] Open Scope nat_scope.

(** The rotated index that lands on column [c]. *)
Lemma rotation_inverse dim d c :
  d < dim -> c < dim ->
  (c + dim - d) mod dim < dim /\ ((c + dim - d) mod dim + d) mod dim = c.
Proof.
  intros Hd Hc. split; [apply Nat.mod_upper_bound; lia |].
  rewrite Nat.Div0.add_mod_idemp_l.
  replace (c + dim - d + d) with (c + 1 * dim) by lia.
  rewrite Nat.Div0.mod_add. now apply Nat.mod_small.
Qed.

Lemma write_row_full dim d (g : Tensor1 C) (t : Tensor2 C) c :
  d < dim -> c < dim ->
  write_row C dim d g t d c = g ((c + dim - d) mod dim).
Proof.
  intros Hd Hc. destruct (rotation_inverse dim d c Hd Hc) as [H1 H2].
  transitivity (write_row C dim d g t d (((c + dim - d) mod dim + d) mod dim));
    [now rewrite H2 | now apply write_row_same].
Qed.

Lemma write_slice_full dim d (h : Tensor2 C) (t : Tensor3 C) b c :
  d < dim -> b < dim -> c < dim ->
  write_slice C dim d h t d b c
  = h ((b + dim - d) mod dim) ((c + dim - d) mod dim).
Proof.
  intros Hd Hb Hc.
  destruct (rotation_inverse dim d b Hd Hb) as [B1 B2].
  destruct (rotation_inverse dim d c Hd Hc) as [C1 C2].
  transitivity (write_slice C dim d h t d
                  (((b + dim - d) mod dim + d) mod dim)
                  (((c + dim - d) mod dim + d) mod dim));
    [now rewrite B2, C2 | now apply write_slice_same].
Qed.

(** Columns beyond [dim] do not exist in a [Tensor<2,dim>]; in the model
    the index functions are never changed there. *)
Lemma write_row_beyond dim d (g : Tensor1 C) (t : Tensor2 C) r c :
  dim <= c -> write_row C dim d g t r c = t r c.
Proof.
  intros Hc. unfold write_row.
  destruct (Nat.eq_dec dim 0) as [-> | Hn]; [reflexivity |].
  assert (H : forall n,
    foldl (fun t d1 => upd2 C t d ((d1 + d) mod dim) (g d1)) t (seq 0 n) r c
    = t r c).
  { induction n as [| n IH]; [reflexivity |].
    rewrite foldl_seq_succ, upd2_other; [exact IH |]. right.
    pose proof (Nat.mod_upper_bound (n + d) dim Hn). lia. }
  apply H.
Qed.

Lemma write_slice_beyond dim d (h : Tensor2 C) (t : Tensor3 C) a b c :
  dim <= b \/ dim <= c -> write_slice C dim d h t a b c = t a b c.
Proof.
  intros Hbc. unfold write_slice.
  destruct (Nat.eq_dec dim 0) as [-> | Hn]; [reflexivity |].
  assert (Hin : forall e1 t n,
    foldl (fun t d2 =>
             upd3 C t d ((e1 + d) mod dim) ((d2 + d) mod dim) (h e1 d2))
          t (seq 0 n) a b c = t a b c).
  { intros e1 t0 n. induction n as [| n IH]; [reflexivity |].
    rewrite foldl_seq_succ, upd3_other; [exact IH |].
    pose proof (Nat.mod_upper_bound (e1 + d) dim Hn).
    pose proof (Nat.mod_upper_bound (n + d) dim Hn).
    right. lia. }
  assert (H : forall n,
    foldl (fun t d1 =>
             foldl (fun t d2 =>
                      upd3 C t d ((d1 + d) mod dim) ((d2 + d) mod dim)
                           (h d1 d2))
                   t (seq 0 dim))
          t (seq 0 n) a b c = t a b c).
  { induction n as [| n IH]; [reflexivity |].
    rewrite foldl_seq_succ. cbv beta. rewrite Hin. exact IH. }
  apply H.
Qed.

(** Writing a row, or a slice, a second time makes the first writing
    disappear. *)
Lemma write_row_twice dim d (g1 g2 : Tensor1 C) (t : Tensor2 C) r c :
  d < dim ->
  write_row C dim d g2 (write_row C dim d g1 t) r c
  = write_row C dim d g2 t r c.
Proof.
  intros Hd. destruct (Nat.eq_dec r d) as [-> | Hr].
  - destruct (le_lt_dec dim c) as [Hc | Hc].
    + now rewrite !write_row_beyond.
    + now rewrite !write_row_full.
  - now rewrite !write_row_frame.
Qed.

Lemma write_slice_twice dim d (h1 h2 : Tensor2 C) (t : Tensor3 C) a b c :
  d < dim ->
  write_slice C dim d h2 (write_slice C dim d h1 t) a b c
  = write_slice C dim d h2 t a b c.
Proof.
  intros Hd. destruct (Nat.eq_dec a d) as [-> | Ha].
  - destruct (le_lt_dec dim b) as [Hb | Hb];
      [rewrite !write_slice_beyond by auto; reflexivity |].
    destruct (le_lt_dec dim c) as [Hc | Hc];
      [rewrite !write_slice_beyond by auto; reflexivity |].
    now rewrite !write_slice_full.
  - now rewrite !write_slice_frame.
Qed.

(** The loop of [compute], run on output vectors that are empty or have
    room for its [dim] blocks (and [compute] itself when moreover
    [n_pols = dim * n_sub]), stores into component [d] of
    [values[i + d*n_sub]] the value of the [i]-th scalar function at the
    point rotated by [d], in every dimension. *)
Theorem loop_stores_values dim abf (unit_point : Point C) (s : buffers) :
  let n_sub := ap_n C (polynomial_space abf) in
  (Z.of_nat (dim * n_sub) < UINT_MOD)%Z ->
  length (values s) = 0 \/ length (values s) = dim * n_sub ->
  length (grads s) = 0 \/ length (grads s) = dim * n_sub ->
  length (grad_grads s) = 0 \/ length (grad_grads s) = dim * n_sub ->
  exists s',
    for_range C 0 dim (direction_body C dim abf unit_point) (resized abf s)
      = (inr tt, s') /\
    (n_pols abf = Z.of_nat (dim * n_sub) ->
     compute C dim abf unit_point s = (inr tt, s')) /\
    forall d i, d < dim -> i < n_sub -> values s <> [] ->
      exists t, values s' !! (i + d * n_sub) = Some t /\
        t d = ap_value C (pols (polynomial_space abf))
                (rotated_point C dim unit_point d) i.
Proof.
  intros n_sub Hw Lv Lg Lh.
  destruct (loop_spec C dim abf unit_point Hw s Lv Lg Lh)
    as (s' & R & _ & Q1 & _ & _).
  exists s'. split; [exact R |].
  split; [intros Hn; now rewrite compute_runs_loop |].
  intros d i Hd Hi Hne.
  destruct (block_index_entry d n_sub i Hi) as [Hq Hm].
  destruct (lookup_lt_is_Some_2 (values s) (i + d * n_sub)) as [t0 Ht0].
  { destruct Lv as [E | E]; [| fold n_sub in E; nia].
    destruct (values s); [congruence | discriminate]. }
  eexists. split; [rewrite Q1, Ht0; reflexivity |].
  unfold entry_value. fold n_sub. rewrite Hq, Hm. apply upd1_same.
Qed.

(** Under the same conditions row [d] of [grads[i + d*n_sub]] and slice
    [d] of [grad_grads[i + d*n_sub]] are overwritten in full: column [c]
    receives the scratch derivative in the rotated coordinate
    [(c + dim - d) % dim], for every [c < dim], so nothing of what the
    caller had there survives. *)
Theorem rows_overwritten dim abf (unit_point : Point C) (s : buffers) :
  let n_sub := ap_n C (polynomial_space abf) in
  let fams := pols (polynomial_space abf) in
  (Z.of_nat (dim * n_sub) < UINT_MOD)%Z ->
  length (values s) = 0 \/ length (values s) = dim * n_sub ->
  length (grads s) = 0 \/ length (grads s) = dim * n_sub ->
  length (grad_grads s) = 0 \/ length (grad_grads s) = dim * n_sub ->
  exists s',
    for_range C 0 dim (direction_body C dim abf unit_point) (resized abf s)
      = (inr tt, s') /\
    (n_pols abf = Z.of_nat (dim * n_sub) ->
     compute C dim abf unit_point s = (inr tt, s')) /\
    forall d i, d < dim -> i < n_sub ->
      let p := rotated_point C dim unit_point d in
      (grads s <> [] ->
       exists t, grads s' !! (i + d * n_sub) = Some t /\
         forall c, c < dim ->
           t d c = ap_grad C fams p i ((c + dim - d) mod dim)) /\
      (grad_grads s <> [] ->
       exists t, grad_grads s' !! (i + d * n_sub) = Some t /\
         forall b c, b < dim -> c < dim ->
           t d b c = ap_grad_grad C fams p i ((b + dim - d) mod dim)
                       ((c + dim - d) mod dim)).
Proof.
  intros n_sub fams Hw Lv Lg Lh.
  destruct (loop_spec C dim abf unit_point Hw s Lv Lg Lh)
    as (s' & R & _ & _ & Q2 & Q3).
  exists s'. split; [exact R |].
  split; [intros Hn; now rewrite compute_runs_loop |].
  intros d i Hd Hi p.
  destruct (block_index_entry d n_sub i Hi) as [Hq Hm].
  split; intros Hne.
  - destruct (lookup_lt_is_Some_2 (grads s) (i + d * n_sub)) as [t0 Ht0].
    { destruct Lg as [E | E]; [| fold n_sub in E; nia].
      destruct (grads s); [congruence | discriminate]. }
    eexists. split; [rewrite Q2, Ht0; reflexivity |].
    intros c Hc. unfold entry_grad. fold n_sub. rewrite Hq, Hm.
    now apply write_row_full.
  - destruct (lookup_lt_is_Some_2 (grad_grads s) (i + d * n_sub)) as [t0 Ht0].
    { destruct Lh as [E | E]; [| fold n_sub in E; nia].
      destruct (grad_grads s); [congruence | discriminate]. }
    eexists. split; [rewrite Q3, Ht0; reflexivity |].
    intros b c Hb Hc. unfold entry_grad_grad. fold n_sub. rewrite Hq, Hm.
    now apply write_slice_full.
Qed.

(** The last call wins: with [n_pols = dim * n_sub], calling [compute] at a
    point [q] on the vectors an earlier call at a point [p] has filled gives,
    component by component, the vectors that the call at [q] alone gives.
    In particular a second call at the same point changes nothing. *)
Theorem last_call_wins dim abf (p q : Point C) (s : buffers) :
  let n_sub := ap_n C (polynomial_space abf) in
  n_pols abf = Z.of_nat (dim * n_sub) ->
  (n_pols abf < UINT_MOD)%Z ->
  empty_or_full abf (length (values s)) ->
  empty_or_full abf (length (grads s)) ->
  empty_or_full abf (length (grad_grads s)) ->
  exists s1 s2 s2',
    compute C dim abf p s = (inr tt, s1) /\
    compute C dim abf q s1 = (inr tt, s2) /\
    compute C dim abf q s = (inr tt, s2') /\
    Forall2 (fun t t' : Tensor1 C => forall c, t c = t' c)
      (values s2) (values s2') /\
    Forall2 (fun t t' : Tensor2 C => forall r c, t r c = t' r c)
      (grads s2) (grads s2') /\
    Forall2 (fun t t' : Tensor3 C => forall a b c, t a b c = t' a b c)
      (grad_grads s2) (grad_grads s2').
Proof.
  intros n_sub Hn Hr Ev Eg Eh.
  assert (Hw : (Z.of_nat (dim * n_sub) < UINT_MOD)%Z) by lia.
  apply (empty_or_full_nat C abf dim) in Ev, Eg, Eh; try exact Hn.
  destruct (compute_spec C dim abf p Hw s Hn Ev Eg Eh)
    as (s1 & R1 & (L1 & L2 & L3) & P1 & P2 & P3).
  destruct (compute_spec C dim abf q Hw s1 Hn)
    as (s2 & R2 & (M1 & M2 & M3) & Q1 & Q2 & Q3);
    try (fold n_sub; lia).
  destruct (compute_spec C dim abf q Hw s Hn Ev Eg Eh)
    as (s2' & R3 & (N1 & N2 & N3) & U1 & U2 & U3).
  exists s1, s2, s2'.
  split; [exact R1 |]. split; [exact R2 |]. split; [exact R3 |].
  assert (Hdir : forall j len, len = 0 \/ len = dim * n_sub -> j < len ->
                   j / n_sub < dim).
  { intros j len Hl Hj. apply Nat.Div0.div_lt_upper_bound. lia. }
  split; [| split]; apply Forall2_same_length_lookup_2; try congruence.
  - intros j x y Hx Hy. rewrite Q1, P1 in Hx. rewrite U1 in Hy.
    destruct (values s !! j) as [t0 |]; [| discriminate].
    cbn in Hx, Hy. injection Hx as <-. injection Hy as <-.
    intros c. unfold entry_value, upd1.
    now destruct (c =? _).
  - intros j x y Hx Hy. rewrite Q2, P2 in Hx. rewrite U2 in Hy.
    destruct (grads s !! j) as [t0 |] eqn:E; [| discriminate].
    cbn in Hx, Hy. injection Hx as <-. injection Hy as <-.
    intros r c. unfold entry_grad. apply write_row_twice.
    apply (Hdir j (length (grads s))); [exact Eg |].
    eapply lookup_lt_Some; eauto.
  - intros j x y Hx Hy. rewrite Q3, P3 in Hx. rewrite U3 in Hy.
    destruct (grad_grads s !! j) as [t0 |] eqn:E; [| discriminate].
    cbn in Hx, Hy. injection Hx as <-. injection Hy as <-.
    intros a b c. unfold entry_grad_grad. apply write_slice_twice.
    apply (Hdir j (length (grad_grads s))); [exact Eh |].
    eapply lookup_lt_Some; eauto.
Qed.

(** The three outputs do not influence one another: with
    [n_pols = dim * n_sub], two calls at the same point whose [values]
    vectors agree return the same [values], whatever the [grads] and
    [grad_grads] vectors are and whether they are asked for at all; and
    likewise for [grads] and for [grad_grads]. *)
Theorem outputs_independent dim abf (unit_point : Point C) (s u : buffers) :
  let n_sub := ap_n C (polynomial_space abf) in
  n_pols abf = Z.of_nat (dim * n_sub) ->
  (n_pols abf < UINT_MOD)%Z ->
  empty_or_full abf (length (values s)) ->
  empty_or_full abf (length (grads s)) ->
  empty_or_full abf (length (grad_grads s)) ->
  empty_or_full abf (length (values u)) ->
  empty_or_full abf (length (grads u)) ->
  empty_or_full abf (length (grad_grads u)) ->
  exists s' u',
    compute C dim abf unit_point s = (inr tt, s') /\
    compute C dim abf unit_point u = (inr tt, u') /\
    (values s = values u -> values s' = values u') /\
    (grads s = grads u -> grads s' = grads u') /\
    (grad_grads s = grad_grads u -> grad_grads s' = grad_grads u').
Proof.
  intros n_sub Hn Hr Ev Eg Eh Fv Fg Fh.
  assert (Hw : (Z.of_nat (dim * n_sub) < UINT_MOD)%Z) by lia.
  apply (empty_or_full_nat C abf dim) in Ev, Eg, Eh, Fv, Fg, Fh; try exact Hn.
  destruct (compute_spec C dim abf unit_point Hw s Hn Ev Eg Eh)
    as (s' & R1 & _ & P1 & P2 & P3).
  destruct (compute_spec C dim abf unit_point Hw u Hn Fv Fg Fh)
    as (u' & R2 & _ & Q1 & Q2 & Q3).
  exists s', u'. split; [exact R1 |]. split; [exact R2 |].
  split; [| split]; intros E; apply list_eq; intros j.
  - now rewrite P1, Q1, E.
  - now rewrite P2, Q2, E.
  - now rewrite P3, Q3, E.
Qed.

End Overwrite.

(** ** One and three dimensions: the stored count is too small *)

Section Overrun.
Context (C : Collaborators).
Hypothesis bases : complete_bases C.

#[local] Abbreviation buffers := (buffers C).

(** With basis generators that return [n + 1] polynomials for the degree
    [n], an object constructed for one or for three dimensions stores, for
    every degree [k] in range, a count [n_pols] smaller than the number
    [dim * n_sub] of entries its [compute] writes.  So every call that asks
    for an output, with vectors of the lengths the size checks demand,
    passes these checks and then indexes a vector past its end. *)
Theorem compute_overruns dim k abf (unit_point : Point C) (s : buffers) :
  0 <= k ->
  (dim = 1%nat /\ k + 3 < 2 ^ 32)
  \/ (dim = 3%nat /\ 3 * (k + 1) * (k + 1) * (k + 3) < 2 ^ 32) ->
  PolynomialsABF_new C dim k = inr abf ->
  empty_or_full abf (length (values s)) ->
  empty_or_full abf (length (grads s)) ->
  empty_or_full abf (length (grad_grads s)) ->
  values s <> [] \/ grads s <> [] \/ grad_grads s <> [] ->
  n_pols abf < Z.of_nat (dim * ap_n C (polynomial_space abf)) /\
  fst (compute C dim abf unit_point s) = inl UndefinedAccess.
Proof.
  intros Hk Hdim Hnew Lv Lg Lh Hne.
  assert (H : n_pols abf < Z.of_nat (dim * ap_n C (polynomial_space abf))
              /\ Z.of_nat (dim * ap_n C (polynomial_space abf)) < UINT_MOD).
  { rewrite UINT_MOD_eq. destruct Hdim as [[-> Hs] | [-> Hs]].
    - destruct (constructed_dim1 C bases k abf Hk Hs Hnew) as [E1 E2].
      rewrite E1, E2. lia.
    - destruct (constructed_dim3 C bases k abf Hk Hs Hnew) as [E1 E2].
      rewrite E1, E2. nia. }
  destruct H as [Hsmall Hw]. split; [exact Hsmall |].
  now apply compute_short.
Qed.

End Overrun.

(** ** The further properties on concrete calls *)

Section Calls.
Import RationalModel.
Import QArith.

#[local] Open Scope Z_scope.

Lemma compute_nothing_requested_witness :
  compute rational 3 (constructed 3 0) [1 # 2; 1 # 3; 1 # 4]%Q
    (zero_buffers 0 0 0)
  = (inr tt, set_scratch rational [] [] [] (zero_buffers 0 0 0)).
Proof.
  apply (compute_nothing_requested rational 3 (constructed 3 0)
           [1 # 2; 1 # 3; 1 # 4]%Q (zero_buffers 0 0 0)); reflexivity.
Defined.

Lemma compute_needs_room_witness :
  fst (compute rational 3 (constructed 3 0) [1 # 2; 1 # 3; 1 # 4]%Q
         (zero_buffers 6 0 0)) = inl UndefinedAccess.
Proof.
  apply (compute_needs_room rational 3 (constructed 3 0)
           [1 # 2; 1 # 3; 1 # 4]%Q (zero_buffers 6 0 0)).
  - reflexivity.
  - left; reflexivity.
  - right; reflexivity.
  - right; reflexivity.
  - left; discriminate.
  - reflexivity.
Defined.

Lemma scratch_after_call_witness :
  exists s',
    compute rational 2 (constructed 2 0) [1 # 2; 1 # 3]%Q (zero_buffers 6 6 0)
      = (inr tt, s') /\
    p_values s'
    = map (ap_value rational (pols (polynomial_space (constructed 2 0)))
             (rotated_point rational 2 [1 # 2; 1 # 3]%Q 1)) (seq 0 3) /\
    p_grads s'
    = map (ap_grad rational (pols (polynomial_space (constructed 2 0)))
             (rotated_point rational 2 [1 # 2; 1 # 3]%Q 1)) (seq 0 3) /\
    p_grad_grads s' = [].
Proof.
  destruct (compute_spec rational 2 (constructed 2 0) [1 # 2; 1 # 3]%Q
              ltac:(reflexivity) (zero_buffers 6 6 0))
    as (s' & R & _);
    try solve [reflexivity | left; reflexivity | right; reflexivity].
  exists s'. split; [exact R |].
  apply (scratch_after_call rational 2 (constructed 2 0) [1 # 2; 1 # 3]%Q
           (zero_buffers 6 6 0) s'); [lia | exact R].
Defined.

Lemma rotated_point_rotate_witness :
  rotated_point rational 3 [1 # 2; 1 # 3; 1 # 4]%Q 1
  = [1 # 3; 1 # 4; 1 # 2]%Q
  /\ rotated_point rational 3 [1 # 2; 1 # 3; 1 # 4]%Q 1
     ≡ₚ [1 # 2; 1 # 3; 1 # 4]%Q.
Proof.
  destruct (rotated_point_rotate rational 3 [1 # 2; 1 # 3; 1 # 4]%Q 1)
    as (H1 & H2 & _); [reflexivity |].
  split; [exact H1 | exact H2].
Defined.

Lemma block_index_bijective_witness :
  (forall i d, (i < 3)%nat -> (d < 3)%nat ->
     (block_index i d 3 < 3 * 3)%nat /\
     (block_index i d 3 / 3)%nat = d /\ (block_index i d 3 mod 3)%nat = i) /\
  (forall j, (j < 3 * 3)%nat ->
     (j mod 3 < 3)%nat /\ (j / 3 < 3)%nat /\
     block_index (j mod 3) (j / 3) 3 = j).
Proof.
  apply (block_index_bijective 3 3). reflexivity.
Defined.

Lemma loop_stores_values_witness :
  exists s',
    for_range rational 0 3
      (direction_body rational 3 (constructed 3 0) [1 # 2; 1 # 3; 1 # 4]%Q)
      (resized (constructed 3 0) (zero_buffers 9 9 9)) = (inr tt, s') /\
    forall d i, (d < 3)%nat -> (i < 3)%nat ->
      values (zero_buffers 9 9 9) <> [] ->
      exists t, values s' !! (i + d * 3)%nat = Some t /\
        t d = ap_value rational (pols (polynomial_space (constructed 3 0)))
                (rotated_point rational 3 [1 # 2; 1 # 3; 1 # 4]%Q d) i.
Proof.
  destruct (loop_stores_values rational 3 (constructed 3 0)
              [1 # 2; 1 # 3; 1 # 4]%Q (zero_buffers 9 9 9))
    as (s' & R & _ & H); try solve [reflexivity | right; reflexivity].
  exists s'. split; [exact R | exact H].
Defined.

Lemma rows_overwritten_witness :
  exists s',
    compute rational 2 (constructed 2 0) [1 # 2; 1 # 3]%Q (zero_buffers 6 6 6)
      = (inr tt, s') /\
    forall d i, (d < 2)%nat -> (i < 3)%nat ->
      let p := rotated_point rational 2 [1 # 2; 1 # 3]%Q d in
      (grads (zero_buffers 6 6 6) <> [] ->
       exists t, grads s' !! (i + d * 3)%nat = Some t /\
         forall c, (c < 2)%nat ->
           t d c = ap_grad rational (pols (polynomial_space (constructed 2 0)))
                     p i ((c + 2 - d) mod 2)%nat) /\
      (grad_grads (zero_buffers 6 6 6) <> [] ->
       exists t, grad_grads s' !! (i + d * 3)%nat = Some t /\
         forall b c, (b < 2)%nat -> (c < 2)%nat ->
           t d b c
           = ap_grad_grad rational
               (pols (polynomial_space (constructed 2 0))) p i
               ((b + 2 - d) mod 2)%nat ((c + 2 - d) mod 2)%nat).
Proof.
  destruct (rows_overwritten rational 2 (constructed 2 0) [1 # 2; 1 # 3]%Q
              (zero_buffers 6 6 6))
    as (s' & _ & R & H); try solve [reflexivity | right; reflexivity].
  exists s'. split; [apply R; reflexivity | exact H].
Defined.

Lemma last_call_wins_witness :
  exists s1 s2 s2',
    compute rational 2 (constructed 2 0) [1 # 2; 1 # 3]%Q (zero_buffers 6 6 6)
      = (inr tt, s1) /\
    compute rational 2 (constructed 2 0) [1 # 5; 1 # 7]%Q s1 = (inr tt, s2) /\
    compute rational 2 (constructed 2 0) [1 # 5; 1 # 7]%Q (zero_buffers 6 6 6)
      = (inr tt, s2') /\
    Forall2 (fun t t' : Tensor1 rational => forall c, t c = t' c)
      (values s2) (values s2') /\
    Forall2 (fun t t' : Tensor2 rational => forall r c, t r c = t' r c)
      (grads s2) (grads s2') /\
    Forall2 (fun t t' : Tensor3 rational => forall a b c, t a b c = t' a b c)
      (grad_grads s2) (grad_grads s2').
Proof.
  apply (last_call_wins rational 2 (constructed 2 0) [1 # 2; 1 # 3]%Q
           [1 # 5; 1 # 7]%Q (zero_buffers 6 6 6));
    solve [reflexivity | left; reflexivity].
Defined.

Lemma outputs_independent_witness :
  exists s' u',
    compute rational 2 (constructed 2 0) [1 # 2; 1 # 3]%Q (zero_buffers 6 6 6)
      = (inr tt, s') /\
    compute rational 2 (constructed 2 0) [1 # 2; 1 # 3]%Q (zero_buffers 6 0 0)
      = (inr tt, u') /\
    values s' = values u'.
Proof.
  destruct (outputs_independent rational 2 (constructed 2 0)
              [1 # 2; 1 # 3]%Q (zero_buffers 6 6 6) (zero_buffers 6 0 0))
    as (s' & u' & R1 & R2 & H & _);
    try solve [reflexivity | left; reflexivity | right; reflexivity].
  exists s', u'. split; [exact R1 |]. split; [exact R2 |].
  apply H. reflexivity.
Defined.

Lemma compute_overruns_witness :
  n_pols (constructed 3 0)
  < Z.of_nat (3 * ap_n rational (polynomial_space (constructed 3 0))) /\
  fst (compute rational 3 (constructed 3 0) [1 # 2; 1 # 3; 1 # 4]%Q
         (zero_buffers 6 6 6)) = inl UndefinedAccess.
Proof.
  apply (compute_overruns rational rational_complete 3 0 (constructed 3 0)
           [1 # 2; 1 # 3; 1 # 4]%Q (zero_buffers 6 6 6)).
  - lia.
  - right. split; reflexivity.
  - reflexivity.
  - left; reflexivity.
  - left; reflexivity.
  - left; reflexivity.
  - left; discriminate.
Defined.

End Calls.

(** ** What [compute] leaves alone, in every outcome *)

Section Framing.
Context (C : Collaborators).

#[local] Abbreviation buffers := (buffers C).
#[local] Open Scope nat_scope.

Lemma steady_get_known (I : buffers -> Prop) (k : buffers -> M C unit) :
  (forall s0, I s0 -> steady I (k s0)) -> steady I (bind C (get C) k).
Proof. intros Hk s Hs. exact (Hk s Hs s Hs). Qed.

Lemma steady_for_range_within (I : buffers -> Prop) (body : nat -> M C unit)
    count : forall lo,
  (forall i, lo <= i < lo + count -> steady I (body i)) ->
  steady I (for_range C lo count body).
Proof.
  induction count as [| n IH]; intros lo Hb; [apply steady_ret |].
  apply steady_bind; [apply Hb; lia | apply IH; intros i Hi; apply Hb; lia].
Qed.

Lemma steady_write {T} (I : buffers -> Prop)
    (fget : buffers -> list T) (fset : list T -> buffers -> buffers) j f :
  (forall s t, I s -> fget s !! j = Some t ->
     I (fset (<[j := f t]> (fget s)) s)) ->
  steady I (modify_at C fget fset j f).
Proof.
  intros Hset s Hs. unfold modify_at, bind, get, at_index, modify.
  destruct (fget s !! j) as [t |] eqn:E; cbn.
  - split; [| now left]. now apply Hset.
  - split; [exact Hs | now right].
Qed.

Lemma kept_refl {T} (same : nat -> T -> T -> Prop) (v : list T) :
  (forall j t, same j t t) -> kept same v v.
Proof. intros H. split; [reflexivity | eauto]. Qed.

(** Writing [f t] over the entry [t] found at [j] keeps the relation if
    [f] does. *)
Lemma kept_write {T} (same : nat -> T -> T -> Prop) (v0 v : list T) j t f :
  kept same v0 v -> v !! j = Some t ->
  (forall t0, same j t t0 -> same j (f t) t0) ->
  kept same v0 (<[j := f t]> v).
Proof.
  intros [L H] Ht Hf. split; [now rewrite length_insert |].
  intros j' t0 H0. destruct (H j' t0 H0) as (t' & E & S').
  destruct (Nat.eq_dec j' j) as [-> | Hne].
  - exists (f t). split.
    + apply list_lookup_insert_eq. eapply lookup_lt_Some; eauto.
    + apply Hf. congruence.
  - exists t'. split; [| exact S'].
    rewrite list_lookup_insert_ne by congruence. exact E.
Qed.

Section Direction.
Variable dim : nat.
Variable abf : PolynomialsABF C.
Variable unit_point : Point C.
Variable s0 : buffers.

Let n_sub := ap_n C (polynomial_space abf).

Hypothesis no_wrap : (Z.of_nat (dim * n_sub) < UINT_MOD)%Z.

Let inv (s : buffers) : Prop := shaped abf s0 s /\ framed abf s0 s.

(** The index written for the function [i] in the direction [d]. *)
Lemma written_index i d :
  i < n_sub -> d < dim ->
  block_index i d n_sub = d * n_sub + i /\ (d * n_sub + i) / n_sub = d.
Proof.
  intros Hi Hd. split.
  - apply block_index_small. nia.
  - destruct (block_div_mod d n_sub (d * n_sub + i)) as [Hq _]; [lia |].
    exact Hq.
Qed.

Lemma steady_store_values d :
  d < dim -> steady inv (store_values C d n_sub).
Proof.
  intros Hd. unfold store_values.
  apply steady_get_known. intros s1 [(_ & P1 & _) _].
  apply steady_for_range_within. intros i Hi.
  assert (Hn : i < n_sub).
  { rewrite P1 in Hi.
    destruct (length (values s0) =? 0); [lia | exact (proj2 Hi)]. }
  destruct (written_index i d Hn Hd) as [Ej Eq].
  apply steady_get. intros s2. apply steady_at_index. intros x.
  apply steady_write. intros s t [Hs (Fv & Fg & Fh)] Ht. split.
  - apply shaped_set_values; [exact Hs | apply length_insert].
  - split; [| split; [exact Fg | exact Fh]].
    cbn [values set_values].
    apply (kept_write _ _ _ _ t (fun t => upd1 C t d x));
      [exact Fv | exact Ht |].
    intros t0 H0 c Hc. fold n_sub in Hc. rewrite Ej, Eq in Hc.
    rewrite upd1_other by exact Hc. apply H0. fold n_sub.
    now rewrite Ej, Eq.
Qed.

Lemma steady_store_grads d :
  d < dim -> steady inv (store_grads C dim d n_sub).
Proof.
  intros Hd. unfold store_grads.
  apply steady_get_known. intros s1 [(_ & _ & P2 & _) _].
  apply steady_for_range_within. intros i Hi.
  assert (Hn : i < n_sub).
  { rewrite P2 in Hi.
    destruct (length (grads s0) =? 0); [lia | exact (proj2 Hi)]. }
  destruct (written_index i d Hn Hd) as [Ej Eq].
  apply steady_for_range. intros d1.
  apply steady_get. intros s2. apply steady_at_index. intros g.
  apply steady_write. intros s t [Hs (Fv & Fg & Fh)] Ht. split.
  - apply shaped_set_grads; [exact Hs | apply length_insert].
  - split; [exact Fv | split; [| exact Fh]].
    cbn [grads set_grads].
    apply (kept_write _ _ _ _ t
             (fun t => upd2 C t d ((d1 + d) mod dim) (g d1)));
      [exact Fg | exact Ht |].
    intros t0 H0 r c Hr. fold n_sub in Hr. rewrite Ej, Eq in Hr.
    rewrite upd2_other by (left; exact Hr). apply H0. fold n_sub.
    now rewrite Ej, Eq.
Qed.

Lemma steady_store_grad_grads d :
  d < dim -> steady inv (store_grad_grads C dim d n_sub).
Proof.
  intros Hd. unfold store_grad_grads.
  apply steady_get_known. intros s1 [(_ & _ & _ & P3) _].
  apply steady_for_range_within. intros i Hi.
  assert (Hn : i < n_sub).
  { rewrite P3 in Hi.
    destruct (length (grad_grads s0) =? 0); [lia | exact (proj2 Hi)]. }
  destruct (written_index i d Hn Hd) as [Ej Eq].
  apply steady_for_range. intros d1. apply steady_for_range. intros d2.
  apply steady_get. intros s2. apply steady_at_index. intros h.
  apply steady_write. intros s t [Hs (Fv & Fg & Fh)] Ht. split.
  - apply shaped_set_grad_grads; [exact Hs | apply length_insert].
  - split; [exact Fv | split; [exact Fg |]].
    cbn [grad_grads set_grad_grads].
    apply (kept_write _ _ _ _ t
             (fun t => upd3 C t d ((d1 + d) mod dim) ((d2 + d) mod dim)
                         (h d1 d2)));
      [exact Fh | exact Ht |].
    intros t0 H0 a b c Ha. fold n_sub in Ha. rewrite Ej, Eq in Ha.
    rewrite upd3_other by (left; exact Ha). apply H0. fold n_sub.
    now rewrite Ej, Eq.
Qed.

Lemma steady_direction_framed d :
  d < dim -> steady inv (direction_body C dim abf unit_point d).
Proof.
  intros Hd s [Hs Hf].
  pose proof Hs as (_ & P1 & P2 & P3).
  assert (R : ap_compute C (polynomial_space abf)
                (rotated_point C dim unit_point d) s
              = (inr tt,
                 set_scratch C
                   (map (ap_value C (pols (polynomial_space abf))
                           (rotated_point C dim unit_point d))
                      (seq 0 (length (p_values s))))
                   (map (ap_grad C (pols (polynomial_space abf))
                           (rotated_point C dim unit_point d))
                      (seq 0 (length (p_grads s))))
                   (map (ap_grad_grad C (pols (polynomial_space abf))
                           (rotated_point C dim unit_point d))
                      (seq 0 (length (p_grad_grads s)))) s)).
  { apply ap_compute_eq.
    - rewrite P1. destruct (length (values s0) =? 0); auto.
    - rewrite P2. destruct (length (grads s0) =? 0); auto.
    - rewrite P3. destruct (length (grad_grads s0) =? 0); auto. }
  unfold direction_body. cbv zeta. rewrite (bind_ok C _ _ _ _ _ R).
  fold n_sub.
  apply (steady_bind C inv); [now apply steady_store_values |
    apply steady_bind; [now apply steady_store_grads |
                        now apply steady_store_grad_grads] |].
  split; [| exact Hf].
  unfold shaped. cbn [values grads grad_grads p_values p_grads p_grad_grads
                      set_scratch].
  rewrite !length_map_seq. exact Hs.
Qed.

Lemma steady_loop_framed :
  steady inv (for_range C 0 dim (direction_body C dim abf unit_point)).
Proof.
  apply steady_for_range_within. intros d Hd.
  apply steady_direction_framed. lia.
Qed.

End Direction.

Lemma framed_refl abf (s : buffers) : framed abf s s.
Proof. repeat split; eauto. Qed.

(** In every outcome of [compute], the buffers it leaves are [framed]. *)
Lemma compute_framed dim abf (unit_point : Point C) (s : buffers) :
  (Z.of_nat (dim * ap_n C (polynomial_space abf)) < UINT_MOD)%Z ->
  framed abf s (snd (compute C dim abf unit_point s)).
Proof.
  intros Hw. rewrite compute_unfold.
  destruct (size_ok abf (length (values s))); [| apply framed_refl].
  destruct (size_ok abf (length (grads s))); [| apply framed_refl].
  destruct (size_ok abf (length (grad_grads s))); [| apply framed_refl].
  apply (steady_loop_framed dim abf unit_point s Hw (resized abf s)).
  split; [apply shaped_resized | apply (framed_refl abf s)].
Qed.

(** C10: [compute] never initialises or writes what it does not own.  For
    every object, in every dimension, on output vectors of any lengths
    and contents and in every outcome of the call (normal return, size
    mismatch, or an index past the end of a vector, where the call stops):
    no output vector changes its length, so an empty one stays empty, and
    in entry [i + d*n_sub] every component of [values] other than [d],
    every row of [grads] other than [d] and every slice of [grad_grads]
    other than [d] is exactly what it was before the call. *)
Theorem compute_writes_own_only dim abf (unit_point : Point C) (s : buffers) :
  let n_sub := ap_n C (polynomial_space abf) in
  let s' := snd (compute C dim abf unit_point s) in
  (Z.of_nat (dim * n_sub) < UINT_MOD)%Z ->
  (length (values s') = length (values s) /\
   length (grads s') = length (grads s) /\
   length (grad_grads s') = length (grad_grads s)) /\
  forall d i, i < n_sub ->
    (forall t : Tensor1 C, values s !! (i + d * n_sub) = Some t ->
       exists t', values s' !! (i + d * n_sub) = Some t' /\
         forall c, c <> d -> t' c = t c) /\
    (forall t : Tensor2 C, grads s !! (i + d * n_sub) = Some t ->
       exists t', grads s' !! (i + d * n_sub) = Some t' /\
         forall r c, r <> d -> t' r c = t r c) /\
    (forall t : Tensor3 C, grad_grads s !! (i + d * n_sub) = Some t ->
       exists t', grad_grads s' !! (i + d * n_sub) = Some t' /\
         forall a b c, a <> d -> t' a b c = t a b c).
Proof.
  intros n_sub s' Hw.
  destruct (compute_framed dim abf unit_point s Hw)
    as ((L1 & K1) & (L2 & K2) & (L3 & K3)).
  fold s' in L1, K1, L2, K2, L3, K3. fold n_sub in K1, K2, K3.
  split; [auto |].
  intros d i Hi.
  destruct (block_index_entry d n_sub i Hi) as [Hq _].
  split; [| split]; intros t Ht.
  - destruct (K1 _ _ Ht) as (t' & E & H). exists t'. split; [exact E |].
    intros c Hc. apply H. now rewrite Hq.
  - destruct (K2 _ _ Ht) as (t' & E & H). exists t'. split; [exact E |].
    intros r c Hr. apply H. now rewrite Hq.
  - destruct (K3 _ _ Ht) as (t' & E & H). exists t'. split; [exact E |].
    intros a b c Ha. apply H. now rewrite Hq.
Qed.

End Framing.

(** ** No state carried from one call to the next *)

Section Stateless.
Context (C : Collaborators).

(** C9: [compute] carries no hidden state that affects its results.  For
    every object, dimension and point, and for the same three output
    vectors: whatever the scratch members hold when the call starts, the
    outcome and the three output vectors after the call are the same; and
    so a second call on the same object, made after a first one with
    output vectors supplied anew with the same contents, has the outcome
    of the first and leaves the same output vectors. *)
Theorem compute_no_hidden_state dim abf (unit_point : Point C)
    (v : list (Tensor1 C)) (g : list (Tensor2 C)) (h : list (Tensor3 C))
    (pv pv' : list (scalar C)) (pg pg' : list (Tensor1 C))
    (ph ph' : list (Tensor2 C)) :
  let s := Build_buffers C v g h pv pg ph in
  let s' := Build_buffers C v g h pv' pg' ph' in
  let first := compute C dim abf unit_point s in
  let other := compute C dim abf unit_point s' in
  let second := compute C dim abf unit_point (with_outputs s (snd first)) in
  (fst first = fst other /\
   values (snd first) = values (snd other) /\
   grads (snd first) = grads (snd other) /\
   grad_grads (snd first) = grad_grads (snd other)) /\
  (fst first = fst second /\
   values (snd first) = values (snd second) /\
   grads (snd first) = grads (snd second) /\
   grad_grads (snd first) = grad_grads (snd second)).
Proof.
  intros s s' first other second. split.
  - apply (compute_ignores_scratch C dim abf unit_point s s').
    repeat split; reflexivity.
  - apply (compute_ignores_scratch C dim abf unit_point s
             (with_outputs s (snd first))).
    repeat split; reflexivity.
Qed.

End Stateless.

(** ** The one- and three-dimensional objects of degree 0 *)

Section Degree0.
Import RationalModel.
Import QArith.

#[local] Open Scope Z_scope.

(** C1 fails on the code in one and in three dimensions.  For [k = 0]
    the constructor stores [n_pols = 6] in three dimensions and 1 in one,
    while the space has [n_sub = 3] functions.  Called with [grads] and
    [grad_grads] of the [n_pols] entries its size checks demand,
    [compute] passes the checks and then, instead of storing the
    derivatives of every direction, indexes the vectors past their end:
    the entry [0 + 2*3] of the third direction does not exist in three
    dimensions, nor does the entry [1 + 0*3] in one. *)
Theorem compute_derivatives_overrun :
  (PolynomialsABF_new rational 3 0 = inr (constructed 3 0) /\
   n_pols (constructed 3 0) = 6 /\
   ap_n rational (polynomial_space (constructed 3 0)) = 3%nat /\
   grads (zero_buffers 0 6 6) !! (0 + 2 * 3)%nat = None /\
   fst (compute rational 3 (constructed 3 0) [1 # 2; 1 # 3; 1 # 4]%Q
          (zero_buffers 0 6 6)) = inl UndefinedAccess) /\
  (PolynomialsABF_new rational 1 0 = inr (constructed 1 0) /\
   n_pols (constructed 1 0) = 1 /\
   ap_n rational (polynomial_space (constructed 1 0)) = 3%nat /\
   grads (zero_buffers 0 1 1) !! (1 + 0 * 3)%nat = None /\
   fst (compute rational 1 (constructed 1 0) [1 # 2]%Q (zero_buffers 0 1 1))
     = inl UndefinedAccess).
Proof. vm_compute. repeat split. Qed.




(** A run in two dimensions on output vectors filled with 7: of every
    entry, only the component of its own direction is written. *)
Example run_dim2_filled :
  let '(r, s') := compute rational 2 (constructed 2 0) [1 # 2; 1 # 3]%Q
                    (filled_buffers 7 6 6 0) in
  r = inr tt /\
  table1 2 (values s')
  = [[0; 7]; [1; 7]; [0; 7]; [7; 2 # 9]; [7; 8 # 9]; [7; -1 # 9]]%Q /\
  table2 2 (grads s')
  = [[[-1; 0]; [7; 7]]; [[0; 0]; [7; 7]]; [[1; 0]; [7; 7]];
     [[7; 7]; [0; -5 # 3]]; [[7; 7]; [0; 4 # 3]]; [[7; 7]; [0; 1 # 3]]]%Q.
Proof. vm_compute. repeat split. Qed.

Lemma compute_writes_own_only_witness :
  let s := filled_buffers 7 6 6 6 in
  let s' := snd (compute rational 3 (constructed 3 0)
                   [1 # 2; 1 # 3; 1 # 4]%Q s) in
  (length (values s') = 6%nat /\ length (grads s') = 6%nat /\
   length (grad_grads s') = 6%nat) /\
  (forall d i, (i < 3)%nat ->
     (forall t : Tensor1 rational, values s !! (i + d * 3)%nat = Some t ->
        exists t', values s' !! (i + d * 3)%nat = Some t' /\
          forall c, c <> d -> t' c = t c) /\
     (forall t : Tensor2 rational, grads s !! (i + d * 3)%nat = Some t ->
        exists t', grads s' !! (i + d * 3)%nat = Some t' /\
          forall r c, r <> d -> t' r c = t r c) /\
     (forall t : Tensor3 rational,
        grad_grads s !! (i + d * 3)%nat = Some t ->
        exists t', grad_grads s' !! (i + d * 3)%nat = Some t' /\
          forall a b c, a <> d -> t' a b c = t a b c)) /\
  (exists t' : Tensor1 rational,
     values s' !! 4%nat = Some t' /\ t' 0%nat = 7%Q /\ t' 2%nat = 7%Q) /\
  (exists t' : Tensor2 rational,
     grads s' !! 4%nat = Some t' /\ t' 0%nat 1%nat = 7%Q
     /\ t' 2%nat 2%nat = 7%Q).
Proof.
  intros s s'.
  destruct (compute_writes_own_only rational 3 (constructed 3 0)
              [1 # 2; 1 # 3; 1 # 4]%Q s) as [L H]; [reflexivity |].
  split; [exact L |]. split; [exact H |].
  destruct (H 1%nat 1%nat) as (H1 & H2 & _); [vm_compute; lia |].
  split.
  - destruct (H1 (fun _ => 7%Q) eq_refl) as (t' & E & K).
    exists t'. split; [exact E |].
    split; apply K; discriminate.
  - destruct (H2 (fun _ _ => 7%Q) eq_refl) as (t' & E & K).
    exists t'. split; [exact E |].
    split; apply K; discriminate.
Defined.

End Degree0.
